(** * The completion values and the completion commands of the readline shell

  A shallow embedding of [internal/completion/values.go] (candidate lists
  and the result bundle: filtering, grouping by tag, merging, ordering) and
  of [completion.go] (the completion commands a key press runs), with the
  properties the specification states about them.

  Go strings are byte sequences: [string] below is a sequence of bytes
  ([ascii] is one byte), [==] is equality of the bytes, [<] compares byte by
  byte, and [strings.HasPrefix] looks at the leading bytes. *)

From Stdlib Require Import ZArith Ascii String.
From stdpp Require Import base option list gmap strings fin_maps.

#[local] Open Scope Z_scope.

(** ** Go's [strings] package and string comparison *)

Module strings.

(** [c < utf8.RuneSelf]: the byte is an ASCII character. *)
Definition isASCIIByte (c : ascii) : bool := (N_of_ascii c <? 128)%N.

(** ['A' <= c && c <= 'Z'] *)
Definition isUpperByte (c : ascii) : bool :=
  ((65 <=? N_of_ascii c) && (N_of_ascii c <=? 90))%N.

(** [c += 'a' - 'A'] on an upper-case byte, other bytes as they are. *)
Definition lowerByte (c : ascii) : ascii :=
  if isUpperByte c then ascii_of_N (N_of_ascii c + 32) else c.

Fixpoint allBytes (p : ascii -> bool) (s : string) : bool :=
  match s with
  | EmptyString => true
  | String c s' => p c && allBytes p s'
  end.

Fixpoint anyByte (p : ascii -> bool) (s : string) : bool :=
  match s with
  | EmptyString => false
  | String c s' => p c || anyByte p s'
  end.

Fixpoint mapBytes (f : ascii -> ascii) (s : string) : string :=
  match s with
  | EmptyString => EmptyString
  | String c s' => String (f c) (mapBytes f s')
  end.

(** [strings.ToLower]. A string of ASCII bytes is folded byte by byte (and
    returned as it is when it has no upper-case letter); a string with a
    byte from 0x80 on goes through [strings.Map(unicode.ToLower, s)], whose
    tables belong to Go's library: that path is the argument [unicodeLower]. *)
Definition ToLower (unicodeLower : string -> string) (s : string) : string :=
  if allBytes isASCIIByte s then
    if anyByte isUpperByte s then mapBytes lowerByte s else s
  else unicodeLower s.

(** [strings.HasPrefix]: [len(s) >= len(prefix) && s[:len(prefix)] == prefix]. *)
Definition HasPrefix (s prefix : string) : bool :=
  (String.length prefix <=? String.length s)%nat
  && String.eqb (String.substring 0 (String.length prefix) s) prefix.

(** The comparison [a < b] of two Go strings: the first byte that differs
    decides, and a proper prefix is smaller. *)
Fixpoint less (a b : string) : bool :=
  match a, b with
  | _, EmptyString => false
  | EmptyString, String _ _ => true
  | String x a', String y b' =>
      if (N_of_ascii x <? N_of_ascii y)%N then true
      else if (N_of_ascii y <? N_of_ascii x)%N then false
      else less a' b'
  end.

(** The lexicographic order on byte strings, as a relation. *)
Inductive lex_lt : string -> string -> Prop :=
| lex_lt_nil y b : lex_lt EmptyString (String y b)
| lex_lt_head x y a b :
    (N_of_ascii x < N_of_ascii y)%N -> lex_lt (String x a) (String y b)
| lex_lt_tail x a b : lex_lt a b -> lex_lt (String x a) (String x b).

(** The leading bytes of [s] are [p]. *)
Inductive is_prefix : string -> string -> Prop :=
| is_prefix_nil s : is_prefix EmptyString s
| is_prefix_cons c p s : is_prefix p s -> is_prefix (String c p) (String c s).

End strings.

(** ** internal/completion/values.go *)

Module completion.

(** Modelled from the spec: [Candidate] is declared in another file of the
    package. The fields are the ones the code reads ([Value], [Display],
    [Tag]) and the specification's [no_space]. *)
Record Candidate : Type := mkCandidate {
  Value : string;
  Display : string;
  Tag : string;
  noSpace : bool;
}.

#[global] Instance Candidate_eq_dec : EqDecision Candidate.
Proof. solve_decision. Defined.

(** [type RawValues []Candidate] *)
Abbreviation RawValues := (list Candidate).

(** [Filter]: the candidates whose value is none of [values]. *)
Definition Filter (c : RawValues) (values : list string) : RawValues :=
  let toremove : gmap string bool :=
    foldl (fun m v => <[v := true]> m) ∅ values in
  foldl (fun filtered rawValue =>
           match toremove !! Value rawValue with
           | Some _ => filtered
           | None => filtered ++ [rawValue]
           end) [] c.

(** [EachTag]: the loop state is the list of tags met so far and the
    group of each of them. *)
Definition eachTagStep (st : list string * gmap string RawValues)
    (val : Candidate) : list string * gmap string RawValues :=
  let '(tags, tagGroups) := st in
  let '(tags, tagGroups) :=
    match tagGroups !! Tag val with
    | Some _ => (tags, tagGroups)
    | None => (tags ++ [Tag val], <[Tag val := []]> tagGroups)
    end in
  (tags, <[Tag val := default [] (tagGroups !! Tag val) ++ [val]]> tagGroups).

Definition eachTagGroups (c : RawValues) : list string * gmap string RawValues :=
  foldl eachTagStep ([], ∅) c.

(** [EachTag] runs [tagF] on each tag and its group; the callback acts on
    a state [S] of the caller's. *)
Definition EachTag {S : Type} (c : RawValues)
    (tagF : string -> RawValues -> S -> S) (s : S) : S :=
  let '(tags, tagGroups) := eachTagGroups c in
  foldl (fun s tag => tagF tag (default [] (tagGroups !! tag)) s) s tags.

(** The calls [EachTag] makes, in order: the callback that records its
    arguments. *)
Definition tagGroupsOf (c : RawValues) : list (string * RawValues) :=
  EachTag c (fun tag values calls => calls ++ [(tag, values)]) [].

(** [Len], [Swap], [Less] (sort.Interface); an index out of range panics,
    which is [None]. *)
Definition Len (x : RawValues) : Z := Z.of_nat (length x).

Definition index (x : RawValues) (i : Z) : option Candidate :=
  if (0 <=? i) && (i <? Len x) then x !! Z.to_nat i else None.

Definition Swap (x : RawValues) (i j : Z) : option RawValues :=
  xi ← index x i;
  xj ← index x j;
  Some (<[Z.to_nat j := xi]> (<[Z.to_nat i := xj]> x)).

Section Folding.

(** [strings.Map(unicode.ToLower, _)], Go's folding of a string that is
    not ASCII. *)
Variable unicodeLower : string -> string.

Abbreviation ToLower := (strings.ToLower unicodeLower).

(** [FilterPrefix] *)
Definition FilterPrefix (c : RawValues) (prefix : string) (matchCase : bool)
    : RawValues :=
  if String.eqb prefix "" then c
  else
    let prefix := if negb matchCase then ToLower prefix else prefix in
    foldl (fun filtered raw =>
             let val := Value raw in
             let val := if negb matchCase then ToLower val else val in
             if strings.HasPrefix val prefix then filtered ++ [raw]
             else filtered) [] c.

(** [Less] *)
Definition Less (x : RawValues) (i j : Z) : option bool :=
  xi ← index x i;
  xj ← index x j;
  Some (strings.less (ToLower (Value xi)) (ToLower (Display xj))).

End Folding.

(** Modelled from the spec: the type of [Values.Messages] and its [Merge]
    are declared in another file of the package. The specification has
    "per-tag status/error strings, merged by union (existing entries are not
    overwritten)": a map from tag to text, and the union that keeps the
    receiver's entry where both have one. *)
Definition Messages_Merge (m other : gmap string string) : gmap string string :=
  m ∪ other.

(** Modelled from the spec: the type of [Values.NoSpace] and its [Merge] are
    declared in another file of the package. The specification has a
    "per-tag override of the no-trailing-space policy, merged by union (a tag
    once marked no-space stays no-space)": the set of the tags marked. *)
Definition NoSpace_Merge (m other : gset string) : gset string :=
  m ∪ other.

(** A Go map from tag to bool, as [Values.ListLong] is: [None] is the nil
    map, which reads as the empty map and must not be written. *)
Definition tagLookup (m : option (gmap string bool)) (tag : string)
    : option bool :=
  match m with
  | None => None
  | Some entries => entries !! tag
  end.

(** The keys a [range] over the map goes through, in some order. *)
Definition tagKeys (m : option (gmap string bool)) : list string :=
  match m with
  | None => []
  | Some entries => (map_to_list entries).*1
  end.

(** The result bundle [Values], declared in another file of the package:
    the fields are the ones [Merge] touches, and the candidates. *)
Record Values : Type := mkValues {
  values : RawValues;
  Usage : string;
  NoSpace : gset string;
  Messages : gmap string string;
  ListLong : option (gmap string bool);
}.

(** [completion.Values{}]: every field at its zero value, the map nil. *)
Definition zero : Values := mkValues [] "" ∅ ∅ None.

(** How a call on a receiver ends: it returns or it panics, and either way
    the receiver is as the call left it. *)
Inductive Outcome : Type :=
| Returned (c : Values)
| Panicked (c : Values).

Definition receiver (o : Outcome) : Values :=
  match o with
  | Returned c | Panicked c => c
  end.

Definition returns (o : Outcome) : bool :=
  match o with
  | Returned _ => true
  | Panicked _ => false
  end.

(** The loop of [Merge] over [other.ListLong], the tags visited in the order
    [tags] (Go fixes no order for a map): the map it leaves, and whether it
    panicked. A tag not found is written, which panics on a nil map. *)
Fixpoint mergeListLong (tags : list string) (listLong : option (gmap string bool))
    : option (gmap string bool) * bool :=
  match tags with
  | [] => (listLong, false)
  | tag :: tags' =>
      match tagLookup listLong tag with
      | Some _ => mergeListLong tags' listLong
      | None =>
          match listLong with
          | None => (listLong, true)
          | Some entries => mergeListLong tags' (Some (<[tag := true]> entries))
          end
      end
  end.

(** [Merge] on the receiver [c]; [tags] is the order in which the keys of
    [other.ListLong] come. The usage, [NoSpace] and the messages are merged
    before the loop, so a panic of the loop leaves them merged. *)
Definition MergeIn (tags : list string) (c other : Values) : Outcome :=
  let '(listLong, panicked) := mergeListLong tags (ListLong c) in
  let c' :=
    {| values := values c;
       Usage := if String.eqb (Usage other) "" then Usage c else Usage other;
       NoSpace := NoSpace_Merge (NoSpace c) (NoSpace other);
       Messages := Messages_Merge (Messages c) (Messages other);
       ListLong := listLong |} in
  if panicked then Panicked c' else Returned c'.

Definition Merge (c other : Values) : Outcome :=
  MergeIn (tagKeys (ListLong other)) c other.

End completion.

(** ** Packages the commands use *)

Module keymap.

(** The local keymaps the commands set or test for; the other modes of
    package [keymap] are [Other]. *)
Inductive Mode : Type :=
| MenuSelect
| Isearch
| Other (name : string).

#[global] Instance Mode_eq_dec : EqDecision Mode.
Proof. solve_decision. Defined.

End keymap.

Module color.

(** The escape sequences of package [color]: they are parameters. *)
Class Palette : Type := mkPalette {
  Dim : string;
  FgRed : string;
  Reset : string;
}.

End color.

(** ** completion.go *)

Module readline.

Import keymap.

(** The producers handed to the engine ([completion.Completer], a function
    value in the source): [rl.commandCompletion], which asks the completer
    the shell was given and has an empty bundle when there is none;
    [rl.buffers.Complete], the registers; and the closure of
    [historyCompletion] over [rl.histories.Complete(forward, filterLine)]. *)
Inductive Completer : Type :=
| commandCompletion
| buffersComplete
| historiesComplete (forward filterLine : bool).

(** The calls the commands make on the objects the shell holds. *)
Inductive Call : Type :=
| undo_SkipSave
| completer_Select (row column : Z)
| completer_SelectTag (next : bool)
| completer_Cancel (inserted cached : bool)
| completer_GenerateWith (completer : Completer)
| completer_IsearchStart (name : string) (autoinsert : bool)
| completer_ResetForce
| completer_AutocompleteForce
| keymaps_SetLocal (mode : Mode)
| line_CutRune (pos : Z)
| histories_Cycle (next : bool)
| hint_Set (text : string)
| hint_Reset.

#[global] Instance Completer_eq_dec : EqDecision Completer.
Proof. solve_decision. Defined.

#[global] Instance Call_eq_dec : EqDecision Call.
Proof. solve_decision. Defined.

(** The call is one on the completion engine. *)
Definition onCompleter (c : Call) : bool :=
  match c with
  | completer_Select _ _ | completer_SelectTag _ | completer_Cancel _ _
  | completer_GenerateWith _ | completer_IsearchStart _ _
  | completer_ResetForce | completer_AutocompleteForce => true
  | _ => false
  end.

(** The shell the commands run in. The objects behind [rl.undo],
    [rl.completer], [rl.keymaps], [rl.line], [rl.cursor], [rl.histories]
    and [rl.hint] belong to other packages: here a state [World] of the
    shell, what each getter reports of it, and what each call makes of it.
    A getter ([Pos], [Len], [IsActive], [IsInserting], [AutoCompleting],
    [Local], [OnLastSource], [Current], [Name]) reads the state and leaves
    it; [histories_Current] is [None] for Go's [nil]. *)
Class Shell (World : Type) : Type := mkShell {
  Source : Type;
  cursor_Pos : World -> Z;
  line_Len : World -> Z;
  completer_IsActive : World -> bool;
  completer_IsInserting : World -> bool;
  completer_AutoCompleting : World -> bool;
  keymaps_Local : World -> Mode;
  histories_OnLastSource : World -> bool;
  histories_Current : World -> option Source;
  histories_Name : World -> string;
  exec : Call -> World -> World;
}.

Section Commands.

Context {World : Type} `{!Shell World} `{!color.Palette}.

(** A command: from the state of the shell to its result, the state it
    leaves and the calls it made, in order. *)
Definition M (A : Type) : Type := World -> A * World * list Call.

Definition ret {A} (a : A) : M A := fun w => (a, w, []).

Definition bind {A B} (m : M A) (f : A -> M B) : M B :=
  fun w =>
    let '(a, w1, l1) := m w in
    let '(b, w2, l2) := f a w1 in
    (b, w2, l1 ++ l2).

Definition read {A} (getter : World -> A) : M A := fun w => (getter w, w, []).

Definition call (c : Call) : M unit := fun w => (tt, exec c w, [c]).

Definition calls {A} (r : A * World * list Call) : list Call := r.2.

Definition world {A} (r : A * World * list Call) : World := r.1.2.

Notation "x <- m ; k" := (bind m (fun x => k))
  (at level 100, m at next level, right associativity,
   format "'[v' x  <-  m ; '/' k ']'").
Notation "m ;; k" := (bind m (fun _ => k))
  (at level 100, right associativity, format "'[v' m ;; '/' k ']'").

(** [startMenuComplete] *)
Definition startMenuComplete (completer : Completer) : M unit :=
  call undo_SkipSave;;
  call (keymaps_SetLocal MenuSelect);;
  call (completer_GenerateWith completer).

(** [completeWord] *)
Definition completeWord : M unit :=
  call undo_SkipSave;;
  active <- read completer_IsActive;
  (if negb active then startMenuComplete commandCompletion else ret tt);;
  call (completer_Select 1 0).

(** [possibleCompletions] *)
Definition possibleCompletions : M unit :=
  call undo_SkipSave;;
  call (completer_Cancel false false);;
  call (keymaps_SetLocal MenuSelect);;
  call (completer_GenerateWith commandCompletion).

(** [insertCompletions] *)
Definition insertCompletions : M unit := ret tt.

(** [menuComplete] *)
Definition menuComplete : M unit :=
  call undo_SkipSave;;
  active <- read completer_IsActive;
  if negb active then startMenuComplete commandCompletion
  else call (completer_Select 1 0).

(** [deleteCharOrList] *)
Definition deleteCharOrList : M unit :=
  pos <- read cursor_Pos;
  len <- read line_Len;
  if pos <? len then
    pos <- read cursor_Pos;
    call (line_CutRune pos)
  else possibleCompletions.

(** [menuCompleteBackward] *)
Definition menuCompleteBackward : M unit :=
  call undo_SkipSave;;
  active <- read completer_IsActive;
  if negb active then ret tt
  else call (completer_Select (-1) 0).

(** [menuCompleteNextTag] *)
Definition menuCompleteNextTag : M unit :=
  call undo_SkipSave;;
  active <- read completer_IsActive;
  if negb active then ret tt
  else call (completer_SelectTag true).

(** [menuCompletePrevTag] *)
Definition menuCompletePrevTag : M unit :=
  call undo_SkipSave;;
  active <- read completer_IsActive;
  if negb active then ret tt
  else call (completer_SelectTag false).

(** [acceptAndMenuComplete] *)
Definition acceptAndMenuComplete : M unit :=
  call undo_SkipSave;;
  active <- read completer_IsActive;
  if negb active then ret tt
  else
    inserting <- read completer_IsInserting;
    if negb inserting then ret tt
    else
      call (completer_Cancel false false);;
      call (completer_Select 1 0).

(** [viRegistersComplete] *)
Definition viRegistersComplete : M unit :=
  call undo_SkipSave;;
  active <- read completer_IsActive;
  if negb active then startMenuComplete buffersComplete
  else call (completer_Select 1 0).

(** [menuIncrementalSearch] *)
Definition menuIncrementalSearch : M unit :=
  call undo_SkipSave;;
  active <- read completer_IsActive;
  (if negb active then call (completer_GenerateWith commandCompletion)
   else ret tt);;
  call (completer_IsearchStart "completions" false).

(** [fmt.Sprintf("%s%s%s %s", color.Dim, color.FgRed,
    "No command history source", color.Reset)] *)
Definition noHistorySource : string :=
  color.Dim +:+ color.FgRed +:+ "No command history source" +:+ " "
  +:+ color.Reset.

(** The [default] case of [historyCompletion], which the first case falls
    through to. *)
Definition historyCompletionDefault (forward filterLine incremental : bool)
    : M unit :=
  current <- read histories_Current;
  match current with
  | None => call (hint_Set noHistorySource)
  | Some _ =>
      let completer := historiesComplete forward filterLine in
      if incremental then
        call (completer_GenerateWith completer);;
        name <- read histories_Name;
        call (completer_IsearchStart name true)
      else
        startMenuComplete completer;;
        call completer_AutocompleteForce
  end.

(** [historyCompletion] *)
Definition historyCompletion (forward filterLine incremental : bool) : M unit :=
  localMenu <- read (fun w => bool_decide (keymaps_Local w = MenuSelect));
  localSearch <- read (fun w => bool_decide (keymaps_Local w = Isearch));
  auto <- read completer_AutoCompleting;
  if localMenu || localSearch || auto then
    last <- read histories_OnLastSource;
    if last then
      call (histories_Cycle true);;
      call completer_ResetForce;;
      call hint_Reset
    else
      call (histories_Cycle true);;
      historyCompletionDefault forward filterLine incremental
  else historyCompletionDefault forward filterLine incremental.

(** [completionCommands] *)
Definition completionCommands : gmap string (M unit) :=
  list_to_map [
    ("complete", completeWord);
    ("possible-completions", possibleCompletions);
    ("insert-completions", insertCompletions);
    ("menu-complete", menuComplete);
    ("menu-complete-backward", menuCompleteBackward);
    ("delete-char-or-list", deleteCharOrList);
    ("menu-complete-next-tag", menuCompleteNextTag);
    ("menu-complete-prev-tag", menuCompletePrevTag);
    ("accept-and-menu-complete", acceptAndMenuComplete);
    ("vi-registers-complete", viRegistersComplete);
    ("menu-incremental-search", menuIncrementalSearch)
  ].

End Commands.

End readline.

(** ** A shell to run the commands on

    The theorems on the commands hold in every shell. The examples need one:
    this instance keeps the flags the getters report and reads each call in
    the plainest way the specification allows (sections 4.2 and 6). *)

Module simulation.

Import keymap readline.

Record State : Type := mkState {
  pos : Z;
  len : Z;
  active : bool;
  inserting : bool;
  forced : bool;
  local : Mode;
  sources : list string;
  current : nat;
  hintText : string;
}.

Definition run (c : Call) (w : State) : State :=
  let 'mkState p l a i f lo ss cu h := w in
  match c with
  | undo_SkipSave => w
  | completer_Select _ _ => mkState p l a a f lo ss cu h
  | completer_SelectTag _ => mkState p l a a f lo ss cu h
  | completer_Cancel _ _ => mkState p l false false f lo ss cu h
  | completer_GenerateWith _ => mkState p l true false f lo ss cu h
  | completer_IsearchStart _ _ => mkState p l a i f Isearch ss cu h
  | completer_ResetForce => mkState p l a i false lo ss cu h
  | completer_AutocompleteForce => mkState p l a i true lo ss cu h
  | keymaps_SetLocal m => mkState p l a i f m ss cu h
  | line_CutRune q =>
      if (0 <=? q) && (q <? l) then mkState p (l - 1) a i f lo ss cu h else w
  | histories_Cycle _ =>
      mkState p l a i f lo ss (if (S cu <? length ss)%nat then S cu else 0%nat) h
  | hint_Set text => mkState p l a i f lo ss cu text
  | hint_Reset => mkState p l a i f lo ss cu ""
  end.

#[global] Instance shell : Shell State := {|
  Source := string;
  cursor_Pos := pos;
  line_Len := len;
  completer_IsActive := active;
  completer_IsInserting := inserting;
  completer_AutoCompleting := forced;
  keymaps_Local := local;
  histories_OnLastSource := fun w => (length (sources w) <=? S (current w))%nat;
  histories_Current := fun w => sources w !! current w;
  histories_Name := fun w => default "" (sources w !! current w);
  exec := run;
|}.

(** Names in place of the escape sequences. *)
#[global] Instance palette : color.Palette := {|
  color.Dim := "<dim>";
  color.FgRed := "<red>";
  color.Reset := "<reset>";
|}.

(** A line of five characters with the cursor on the fourth, nothing being
    completed, [history] the history sources. *)
Definition editing (history : list string) (cursor : Z) : State :=
  mkState cursor 5 false false false (Other "emacs") history 0 "".

(** The same line while the menu of a history source is shown. *)
Definition browsing (history : list string) (source : nat) : State :=
  mkState 5 5 true false true MenuSelect history source "".

(** The stand-in for Go's Unicode folding in the examples, whose strings
    are ASCII and never reach it. *)
Definition noUnicode (s : string) : string := s.

(** Candidates and bundles for the examples. *)
Definition cABC : completion.Candidate :=
  completion.mkCandidate "ABC" "ABC" "" false.
Definition cabc : completion.Candidate :=
  completion.mkCandidate "abc" "abc" "" false.
Definition foo : completion.Candidate :=
  completion.mkCandidate "foo" "foo" "files" false.
Definition help : completion.Candidate :=
  completion.mkCandidate "--help" "--help" "flags" false.
Definition bar : completion.Candidate :=
  completion.mkCandidate "bar" "bar" "files" false.

Definition files : completion.Values :=
  completion.mkValues [] "files of the directory" ∅
    {["files" := "permission denied"]} (Some {["files" := false]}).

Definition flags : completion.Values :=
  completion.mkValues [cabc] "" ∅
    {["files" := "not found"; "flags" := "deprecated"]}
    (Some {["flags" := true]}).

Definition commands : completion.Values :=
  completion.mkValues [] "commands of the shell" ∅ ∅
    (Some {["files" := true]}).

(** A bundle whose map was never made. *)
Definition history : completion.Values :=
  completion.mkValues [foo] "history of the shell" ∅ ∅ None.

End simulation.

(** ** Notions the properties are stated with *)

Module spec.

Import completion.

(** The elements of a list in the order of their first occurrence. *)
Fixpoint firstSeen (l : list string) : list string :=
  match l with
  | [] => []
  | t :: l' => t :: filter (fun u => u ≠ t) (firstSeen l')
  end.

(** The candidates of [c] that carry the tag [t], in the order of [c]. *)
Definition withTag (t : string) (c : RawValues) : RawValues :=
  filter (fun v => Tag v = t) c.

(** The last string of [us] that is not empty, [u0] when there is none. *)
Definition lastNonEmpty (u0 : string) (us : list string) : string :=
  default u0 (last (filter (fun u => u ≠ "") us)).

(** [Merge] of the bundles [others] into [c], one after the other; a
    merge that panics is the last. *)
Fixpoint mergeAll (c : Values) (others : list Values) : Outcome :=
  match others with
  | [] => Returned c
  | other :: others' =>
      match Merge c other with
      | Returned c' => mergeAll c' others'
      | Panicked c' => Panicked c'
      end
  end.

(** What [FilterPrefix] compares: the string, folded unless the case
    matters. *)
Definition key (unicodeLower : string -> string) (matchCase : bool)
    (s : string) : string :=
  if negb matchCase then strings.ToLower unicodeLower s else s.

(** [s] has [t] somewhere inside. *)
Definition contains (s t : string) : Prop :=
  ∃ before after, s = before +:+ t +:+ after.

(** Blocks of candidates, each block not empty and with the tag its
    candidates carry. *)
Definition tagged (blocks : list (string * RawValues)) : Prop :=
  Forall (fun b => b.2 ≠ [] ∧ Forall (fun v => Tag v = b.1) b.2) blocks.

End spec.

(** ** Kinds of calls *)

Module traces.

Import readline.

(** The call generates completions. *)
Definition generates (c : Call) : bool :=
  match c with
  | completer_GenerateWith _ => true
  | _ => false
  end.

(** The call sets the local keymap. *)
Definition setsKeymap (c : Call) : bool :=
  match c with
  | keymaps_SetLocal _ => true
  | _ => false
  end.

(** The call cuts a rune of the line. *)
Definition cutsRune (c : Call) : bool :=
  match c with
  | line_CutRune _ => true
  | _ => false
  end.

(** The call is one of those [historyCompletion] alone makes: on the
    history sources, on the hint, or forcing the completion and back. *)
Definition ofHistory (c : Call) : bool :=
  match c with
  | histories_Cycle _ | hint_Set _ | hint_Reset
  | completer_ResetForce | completer_AutocompleteForce => true
  | _ => false
  end.

(** The call, with [completer] for the producer if it generates. *)
Definition withCompleter (completer : Completer) (c : Call) : Call :=
  match c with
  | completer_GenerateWith _ => completer_GenerateWith completer
  | _ => c
  end.

End traces.

(** * Properties *)

(** ** Strings *)

Section StringFacts.

Import strings.

Lemma less_irrefl a : less a a = false.
Proof.
  induction a as [|x a IH]; [done|]. cbn.
  rewrite N.ltb_irrefl. exact IH.
Qed.

(** [less] decides the lexicographic order of the bytes. *)
Lemma less_lex_lt a b : less a b = true ↔ lex_lt a b.
Proof.
  split.
  - revert b. induction a as [|x a IH]; intros [|y b] H; cbn in H; try done.
    + constructor.
    + destruct (N.ltb_spec (N_of_ascii x) (N_of_ascii y)) as [Hxy|Hxy].
      { by constructor. }
      destruct (N.ltb_spec (N_of_ascii y) (N_of_ascii x)) as [Hyx|Hyx]; [done|].
      assert (x = y) as ->.
      { rewrite <- (ascii_N_embedding x), <- (ascii_N_embedding y).
        f_equal. lia. }
      apply lex_lt_tail. by apply IH.
  - induction 1 as [y b|x y a b Hxy|x a b _ IH]; cbn.
    + done.
    + by apply N.ltb_lt in Hxy as ->.
    + by rewrite N.ltb_irrefl.
Qed.

Lemma substring_0_prefix p s :
  is_prefix p s ↔
  (String.length p <= String.length s)%nat
  ∧ String.substring 0 (String.length p) s = p.
Proof.
  split.
  - induction 1 as [s|c p s _ [IHl IHs]]; cbn.
    + split; [lia|]. by destruct s.
    + split; [lia|]. by rewrite IHs.
  - revert s. induction p as [|c p IH]; intros s [Hl Hs]; [constructor|].
    destruct s as [|d s]; cbn in *; [lia|].
    injection Hs as -> Hs. constructor. apply IH. split; [lia|done].
Qed.

(** [HasPrefix] decides that the leading bytes of [s] are [p]. *)
Lemma HasPrefix_is_prefix s p : HasPrefix s p = true ↔ is_prefix p s.
Proof.
  unfold HasPrefix. rewrite substring_0_prefix, andb_true_iff.
  rewrite Nat.leb_le, String.eqb_eq. done.
Qed.

#[global] Instance is_prefix_dec p s : Decision (is_prefix p s).
Proof.
  destruct (HasPrefix s p) eqn:H; [left|right].
  - by apply HasPrefix_is_prefix.
  - intros Hp. apply HasPrefix_is_prefix in Hp. congruence.
Defined.

Lemma HasPrefix_empty s : HasPrefix s "" = true.
Proof. apply HasPrefix_is_prefix. constructor. Qed.

(** Folding is the identity on a string that has no upper-case ASCII letter
    and no byte from 0x80 on. *)
Lemma ToLower_lower u s :
  allBytes isASCIIByte s = true → anyByte isUpperByte s = false →
  ToLower u s = s.
Proof. unfold ToLower. by intros -> ->. Qed.

Example ToLower_ABC u : ToLower u "ABC" = "abc".
Proof. reflexivity. Qed.

Example ToLower_mixed u : ToLower u "Foo-Bar_42" = "foo-bar_42".
Proof. reflexivity. Qed.

End StringFacts.

(** ** Candidate lists *)

Section ValuesFacts.

Import strings completion spec.

Variable unicodeLower : string -> string.

Abbreviation ToLower := (strings.ToLower unicodeLower).
Abbreviation FilterPrefix := (completion.FilterPrefix unicodeLower).
Abbreviation Less := (completion.Less unicodeLower).
Abbreviation key := (spec.key unicodeLower).

(** A loop that appends the elements it keeps is [filter]. *)
Lemma foldl_keep {A} (keep : A → bool) (acc l : list A) :
  foldl (fun filtered x => if keep x then filtered ++ [x] else filtered) acc l
  = acc ++ filter (fun x => keep x = true) l.
Proof.
  revert acc. induction l as [|x l IH]; intros acc.
  - cbn. by rewrite app_nil_r.
  - rewrite filter_cons. cbn [foldl]. rewrite IH. destruct (keep x) eqn:Hx.
    + rewrite decide_True by done. by rewrite <- app_assoc.
    + rewrite decide_False by done. done.
Qed.

(** [Filter] keeps the candidates whose value is not listed, in their
    order. *)
Lemma Filter_filter (c : RawValues) (values : list string) :
  Filter c values = filter (fun raw => Value raw ∉ values) c.
Proof.
  clear unicodeLower. unfold Filter.
  set (toremove := foldl _ _ values).
  assert (∀ v, is_Some (toremove !! v) ↔ v ∈ values) as Hremove.
  { subst toremove. intros v.
    assert (∀ m : gmap string bool,
              is_Some (foldl (fun m v => <[v := true]> m) m values !! v)
              ↔ is_Some (m !! v) ∨ v ∈ values) as Hfold.
    { induction values as [|a values IH]; intros m; cbn [foldl].
      - rewrite elem_of_nil. tauto.
      - rewrite IH, elem_of_cons, lookup_insert_is_Some.
        destruct (decide (a = v)) as [->|Hne]; [tauto|].
        assert (v ≠ a) by congruence. tauto. }
    rewrite Hfold, lookup_empty, is_Some_alt. tauto. }
  clearbody toremove.
  assert (∀ acc : RawValues,
            foldl (fun filtered rawValue =>
                     match toremove !! Value rawValue with
                     | Some _ => filtered
                     | None => filtered ++ [rawValue]
                     end) acc c
            = acc ++ filter (fun raw => Value raw ∉ values) c) as Hloop.
  { induction c as [|raw c IH]; intros acc.
    - cbn. by rewrite app_nil_r.
    - rewrite filter_cons. cbn [foldl]. rewrite IH.
      destruct (toremove !! Value raw) as [b|] eqn:Hraw.
      + rewrite decide_False; [done|]. intros Hnot. apply Hnot, Hremove. eauto.
      + rewrite decide_True; [by rewrite <- app_assoc|].
        intros Hin%Hremove. rewrite Hraw in Hin. by destruct Hin. }
  apply Hloop.
Qed.

(** [FilterPrefix] with a prefix that is not empty keeps the candidates
    whose key starts with the key of the prefix, in their order. *)
Lemma FilterPrefix_filter c prefix matchCase :
  prefix ≠ "" →
  FilterPrefix c prefix matchCase
  = filter (fun raw => is_prefix (key matchCase prefix)
                                 (key matchCase (Value raw))) c.
Proof.
  intros Hne. unfold completion.FilterPrefix.
  apply String.eqb_neq in Hne as ->.
  rewrite (foldl_keep (fun raw =>
    HasPrefix (key matchCase (Value raw)) (key matchCase prefix))).
  cbn. apply list_filter_iff. intros raw. apply HasPrefix_is_prefix.
Qed.

Lemma FilterPrefix_empty c matchCase : FilterPrefix c "" matchCase = c.
Proof. reflexivity. Qed.

Lemma FilterPrefix_twice c prefix matchCase :
  FilterPrefix (FilterPrefix c prefix matchCase) prefix matchCase
  = FilterPrefix c prefix matchCase.
Proof.
  destruct (decide (prefix = "")) as [->|Hne]; [done|].
  rewrite !FilterPrefix_filter by done.
  rewrite list_filter_filter. apply list_filter_iff. tauto.
Qed.

(** C7: filtering by a prefix without regard to case is idempotent, and
    filtering by the empty prefix gives the list back, whether the case
    matters or not. *)
Theorem FilterPrefix_idempotent_identity (c : RawValues) (p : string) :
  FilterPrefix (FilterPrefix c p false) p false = FilterPrefix c p false
  ∧ ∀ matchCase, FilterPrefix c "" matchCase = c.
Proof.
  split; [apply FilterPrefix_twice|]. intros matchCase. apply FilterPrefix_empty.
Qed.

Lemma index_Some (x : RawValues) (i : Z) :
  0 ≤ i < Len x → ∃ xi, index x i = Some xi ∧ x !! Z.to_nat i = Some xi.
Proof.
  intros Hi. unfold index, Len in *.
  destruct (lookup_lt_is_Some_2 x (Z.to_nat i)) as [xi Hxi]; [lia|].
  exists xi. split; [|done].
  destruct (Z.leb_spec 0 i); [|lia].
  destruct (Z.ltb_spec i (Z.of_nat (length x))); [done|lia].
Qed.

Lemma index_None (x : RawValues) (i : Z) :
  ¬ (0 ≤ i < Len x) → index x i = None.
Proof.
  intros Hi. unfold index, Len in *.
  destruct (Z.leb_spec 0 i); [|done].
  destruct (Z.ltb_spec i (Z.of_nat (length x))); [lia|done].
Qed.

(** C3: for indices in range, [Less x i j] holds exactly when the folded
    value of the candidate at [i] comes, in the lexicographic order of the
    bytes, before the folded display of the candidate at [j]. *)
Theorem Less_value_against_display (x : RawValues) (i j : Z) :
  0 ≤ i < Len x → 0 ≤ j < Len x →
  ∃ xi xj b,
    x !! Z.to_nat i = Some xi ∧ x !! Z.to_nat j = Some xj
    ∧ Less x i j = Some b
    ∧ (b = true ↔ lex_lt (ToLower (Value xi)) (ToLower (Display xj))).
Proof.
  intros Hi Hj.
  destruct (index_Some x i Hi) as (xi & Hxi & Hli).
  destruct (index_Some x j Hj) as (xj & Hxj & Hlj).
  exists xi, xj, (less (ToLower (Value xi)) (ToLower (Display xj))).
  repeat split; try done.
  - unfold completion.Less. rewrite Hxi, Hxj. done.
  - apply less_lex_lt.
  - apply less_lex_lt.
Qed.

(** An index out of range makes [Less] panic. *)
Lemma Less_out_of_range (x : RawValues) (i j : Z) :
  ¬ (0 ≤ i < Len x) ∨ ¬ (0 ≤ j < Len x) → Less x i j = None.
Proof.
  intros [Hi|Hj]; unfold completion.Less.
  - rewrite (index_None x i) by done. done.
  - rewrite (index_None x j) by done. by destruct (index x i).
Qed.

(** C2, amended: of two candidates with the values "ABC" and "abc", the
    prefix "ab" keeps both when the case does not matter, and keeps the
    candidate "abc", and only it, when the case matters. *)
Theorem FilterPrefix_ABC_abc (c : RawValues) (a b : Candidate) :
  Value a = "ABC" → Value b = "abc" → c ≡ₚ [a; b] →
  FilterPrefix c "ab" false = c ∧ FilterPrefix c "ab" true = [b].
Proof.
  intros Ha Hb Hc. destruct a as [va da ta na], b as [vb db tb nb].
  cbn in Ha, Hb. subst va vb. symmetry in Hc.
  apply Permutation_length_2_inv in Hc as [->| ->]; split; reflexivity.
Qed.

End ValuesFacts.

(** ** The result bundle *)

Section BundleFacts.

Import completion spec.

Lemma tagKeys_elem_of (m : option (gmap string bool)) t :
  t ∈ tagKeys m ↔ is_Some (tagLookup m t).
Proof.
  destruct m as [entries|]; cbn.
  - rewrite list_elem_of_fmap. split.
    + intros ([t' b] & -> & Hb). exists b. by apply elem_of_map_to_list.
    + intros [b Hb]. exists (t, b). split; [done|]. by apply elem_of_map_to_list.
  - rewrite elem_of_nil, is_Some_alt. done.
Qed.

Lemma tagKeys_nil (m : option (gmap string bool)) :
  tagKeys m = [] ↔ ∀ t, tagLookup m t = None.
Proof.
  split.
  - intros Hnil t. apply eq_None_not_Some. intros Hin%tagKeys_elem_of.
    rewrite Hnil in Hin. by apply elem_of_nil in Hin.
  - intros Hnone. destruct (tagKeys m) as [|t l] eqn:Hkeys; [done|].
    assert (t ∈ tagKeys m) as [b Hb]%tagKeys_elem_of by (rewrite Hkeys; left).
    by rewrite Hnone in Hb.
Qed.

(** On a map that was made the loop over [other.ListLong] does not panic,
    and leaves at a tag the entry the receiver had, or [true] for a tag
    visited that it did not have. *)
Lemma mergeListLong_allocated (tags : list string) (m : gmap string bool) :
  ∃ m', mergeListLong tags (Some m) = (Some m', false)
        ∧ ∀ t, m' !! t = match m !! t with
                         | Some b => Some b
                         | None => if decide (t ∈ tags) then Some true else None
                         end.
Proof.
  revert m. induction tags as [|a tags IH]; intros m;
    cbn [mergeListLong tagLookup].
  - exists m. split; [done|]. intros t. destruct (m !! t); [done|].
    rewrite decide_False; [done|]. by intros ?%elem_of_nil.
  - destruct (m !! a) eqn:Ha.
    + destruct (IH m) as (m' & -> & Hm'). exists m'. split; [done|].
      intros t. rewrite Hm'. destruct (m !! t) eqn:Ht; [done|].
      assert (t ≠ a) as Hne by congruence.
      apply decide_ext. rewrite elem_of_cons.
      split; [by right|intros [Heq|Hin]; [by destruct Hne|done]].
    + destruct (IH (<[a:=true]> m)) as (m' & -> & Hm'). exists m'.
      split; [done|]. intros t. rewrite Hm'.
      destruct (decide (t = a)) as [->|Hne].
      * rewrite lookup_insert_eq, Ha. rewrite decide_True; [done|left].
      * rewrite lookup_insert_ne by done. destruct (m !! t); [done|].
        apply decide_ext. rewrite elem_of_cons.
        split; [by right|intros [Heq|Hin]; [by destruct Hne|done]].
Qed.

(** On the nil map the loop panics at the first tag, if there is one. *)
Lemma mergeListLong_nil (tags : list string) :
  mergeListLong tags None
  = (None, match tags with [] => false | _ :: _ => true end).
Proof. by destruct tags. Qed.

(** The receiver after [Merge], whether it returned or panicked. *)
Lemma MergeIn_receiver (tags : list string) (c other : Values) :
  receiver (MergeIn tags c other)
  = {| values := values c;
       Usage := if String.eqb (Usage other) "" then Usage c else Usage other;
       NoSpace := NoSpace_Merge (NoSpace c) (NoSpace other);
       Messages := Messages_Merge (Messages c) (Messages other);
       ListLong := (mergeListLong tags (ListLong c)).1 |}
  ∧ returns (MergeIn tags c other) = negb (mergeListLong tags (ListLong c)).2.
Proof.
  unfold MergeIn. by destruct (mergeListLong tags (ListLong c)) as [l []].
Qed.

Lemma Outcome_eq (o1 o2 : Outcome) :
  receiver o1 = receiver o2 → returns o1 = returns o2 → o1 = o2.
Proof. destruct o1, o2; cbn; congruence. Qed.

(** X16: the order in which Go walks [other.ListLong] does not show in the
    result: the loop run over the tags of [other.ListLong] in any order,
    repeats allowed, leaves what [Merge] leaves, and panics when it does. *)
Lemma MergeIn_any_order (tags : list string) (c other : Values) :
  (∀ t, t ∈ tags ↔ is_Some (tagLookup (ListLong other) t)) →
  MergeIn tags c other = Merge c other.
Proof.
  intros Htags. unfold Merge.
  assert (∀ t, t ∈ tags ↔ t ∈ tagKeys (ListLong other)) as Hsame.
  { intros t. by rewrite Htags, tagKeys_elem_of. }
  destruct (MergeIn_receiver tags c other) as [Hr1 Hp1].
  destruct (MergeIn_receiver (tagKeys (ListLong other)) c other) as [Hr2 Hp2].
  assert (mergeListLong tags (ListLong c)
          = mergeListLong (tagKeys (ListLong other)) (ListLong c)) as Hloop.
  { destruct (ListLong c) as [m|].
    - destruct (mergeListLong_allocated tags m) as (m1 & -> & Hm1).
      destruct (mergeListLong_allocated (tagKeys (ListLong other)) m)
        as (m2 & -> & Hm2).
      do 2 f_equal. apply map_eq. intros t. rewrite Hm1, Hm2.
      destruct (m !! t); [done|]. by apply decide_ext.
    - rewrite !mergeListLong_nil. f_equal.
      destruct tags as [|t tags], (tagKeys (ListLong other)) as [|u keys];
        try done.
      + assert (u ∈ @nil string) as Hu by (apply Hsame; left).
        by apply elem_of_nil in Hu.
      + assert (t ∈ @nil string) as Ht by (apply Hsame; left).
        by apply elem_of_nil in Ht. }
  apply Outcome_eq; [by rewrite Hr1, Hr2, Hloop|by rewrite Hp1, Hp2, Hloop].
Qed.

Lemma Merge_values (c other : Values) :
  values (receiver (Merge c other)) = values c.
Proof.
  unfold Merge. destruct (MergeIn_receiver (tagKeys (ListLong other)) c other)
    as [-> _]. done.
Qed.

Lemma Merge_Messages_keeps (c other : Values) tag text :
  Messages c !! tag = Some text →
  Messages (receiver (Merge c other)) !! tag = Some text.
Proof.
  intros H. unfold Merge.
  destruct (MergeIn_receiver (tagKeys (ListLong other)) c other) as [-> _].
  cbn. unfold Messages_Merge. by apply lookup_union_Some_l.
Qed.

Lemma Merge_Usage (c other : Values) :
  Usage (receiver (Merge c other))
  = if decide (Usage other = "") then Usage c else Usage other.
Proof.
  unfold Merge.
  destruct (MergeIn_receiver (tagKeys (ListLong other)) c other) as [-> _].
  cbn. destruct (decide (Usage other = "")) as [->|Hne]; [done|].
  by apply String.eqb_neq in Hne as ->.
Qed.

(** [Merge] returns when the map of the receiver was made or the bundle
    merged in lists no tag, and panics otherwise. *)
Lemma Merge_returns (c other : Values) :
  returns (Merge c other) = true
  ↔ is_Some (ListLong c) ∨ tagKeys (ListLong other) = [].
Proof.
  unfold Merge.
  destruct (MergeIn_receiver (tagKeys (ListLong other)) c other) as [_ ->].
  destruct (ListLong c) as [m|].
  - destruct (mergeListLong_allocated (tagKeys (ListLong other)) m)
      as (m' & -> & _). cbn. split; [by left; eexists|done].
  - rewrite mergeListLong_nil. cbn.
    destruct (tagKeys (ListLong other)); cbn.
    + split; [by right|done].
    + split; [done|]. by intros [[? ?]|?].
Qed.

(** What [Merge] leaves in the map of the receiver. *)
Lemma Merge_ListLong (c other : Values) :
  match ListLong c with
  | Some entries =>
      ∃ marked, ListLong (receiver (Merge c other)) = Some marked
        ∧ ∀ t, marked !! t
               = match entries !! t with
                 | Some b => Some b
                 | None => match tagLookup (ListLong other) t with
                           | Some _ => Some true
                           | None => None
                           end
                 end
  | None => ListLong (receiver (Merge c other)) = None
  end.
Proof.
  unfold Merge.
  destruct (MergeIn_receiver (tagKeys (ListLong other)) c other) as [-> _].
  cbn. destruct (ListLong c) as [m|].
  - destruct (mergeListLong_allocated (tagKeys (ListLong other)) m)
      as (m' & -> & Hm'). exists m'. split; [done|]. intros t. rewrite Hm'.
    destruct (m !! t); [done|].
    destruct (tagLookup (ListLong other) t) as [b|] eqn:Ho.
    + rewrite decide_True; [done|]. apply tagKeys_elem_of. by rewrite Ho.
    + rewrite decide_False; [done|]. intros [b Hb]%tagKeys_elem_of. congruence.
  - by rewrite mergeListLong_nil.
Qed.

Lemma Merge_ListLong_keeps (c other : Values) tag b :
  tagLookup (ListLong c) tag = Some b →
  tagLookup (ListLong (receiver (Merge c other))) tag = Some b.
Proof.
  intros H. pose proof (Merge_ListLong c other) as Hm.
  destruct (ListLong c) as [m|]; [|done].
  destruct Hm as (m' & -> & Hm'). cbn in *. by rewrite Hm', H.
Qed.

Lemma Merge_allocated (c other : Values) :
  is_Some (ListLong (receiver (Merge c other))) ↔ is_Some (ListLong c).
Proof.
  pose proof (Merge_ListLong c other) as Hm.
  destruct (ListLong c) as [m|].
  - destruct Hm as (m' & -> & _). split; by eexists.
  - by rewrite Hm.
Qed.

Lemma lastNonEmpty_cons u0 u us :
  lastNonEmpty u0 (u :: us)
  = lastNonEmpty (if decide (u = "") then u0 else u) us.
Proof.
  unfold lastNonEmpty. rewrite filter_cons.
  destruct (decide (u = "")) as [->|Hne].
  - by rewrite decide_False by (intros H; by apply H).
  - rewrite decide_True by done. rewrite last_cons.
    by destruct (last _).
Qed.

(** C5: under repeated [Merge] the messages and the tags listed long only
    grow: every entry the receiver had is still there with what it held,
    in the receiver as the merges leave it, the last of them having panicked
    or not. When the merges return, the usage is that of the last bundle
    merged whose usage is not empty; in any case it is so of the bundles
    whose merge began. The merges all return when the map of the receiver
    was made or no bundle lists a tag, and only then: on the nil map the
    write of a tag panics. Merging a bundle with an empty usage leaves the
    usage. *)
Theorem Merge_grows_usage_last (c : Values) (others : list Values) :
  (∀ tag text, Messages c !! tag = Some text →
     Messages (receiver (mergeAll c others)) !! tag = Some text)
  ∧ (∀ tag b, tagLookup (ListLong c) tag = Some b →
       tagLookup (ListLong (receiver (mergeAll c others))) tag = Some b)
  ∧ (∀ r, mergeAll c others = Returned r →
       Usage r = lastNonEmpty (Usage c) (Usage <$> others))
  ∧ (∃ begun, begun `prefix_of` others
       ∧ Usage (receiver (mergeAll c others))
         = lastNonEmpty (Usage c) (Usage <$> begun))
  ∧ (returns (mergeAll c others) = true
     ↔ is_Some (ListLong c)
       ∨ Forall (fun other => tagKeys (ListLong other) = []) others)
  ∧ (∀ other, Usage other = "" → Usage (receiver (Merge c other)) = Usage c).
Proof.
  assert (∀ c other, Usage other = "" →
            Usage (receiver (Merge c other)) = Usage c) as Hempty.
  { intros c0 other H. by rewrite Merge_Usage, decide_True. }
  revert c. induction others as [|o others IH]; intros c.
  - cbn. repeat split; try done.
    + by intros r [= <-].
    + exists []. done.
    + by right.
    + apply Hempty.
  - pose proof (Merge_Usage c o) as Husage.
    pose proof (Merge_returns c o) as Hreturns.
    pose proof (Merge_allocated c o) as Hallocated.
    pose proof (fun tag text => Merge_Messages_keeps c o tag text) as Hmessages.
    pose proof (fun tag b => Merge_ListLong_keeps c o tag b) as Hlong.
    cbn [mergeAll]. destruct (Merge c o) as [c'|c']; cbn in * |-.
    + destruct (IH c') as (IHm & IHl & IHu & (begun & Hbegun & IHb) & IHr & _).
      split; [|split; [|split; [|split; [|split]]]].
      * intros tag text H. by apply IHm, Hmessages.
      * intros tag b H. by apply IHl, Hlong.
      * intros r Hr. rewrite (IHu r Hr), Husage, fmap_cons.
        by rewrite lastNonEmpty_cons.
      * exists (o :: begun). split; [by apply prefix_cons|].
        by rewrite IHb, Husage, fmap_cons, lastNonEmpty_cons.
      * rewrite IHr, Hallocated, Forall_cons. split; [|tauto].
        intros [H|H]; [by left|].
        destruct (proj1 Hreturns eq_refl) as [Hc|Ho]; [by left|by right].
      * apply Hempty.
    + split; [|split; [|split; [|split; [|split]]]]; cbn.
      * intros tag text H. by apply Hmessages.
      * intros tag b H. by apply Hlong.
      * done.
      * exists [o]. split; [by apply prefix_cons, prefix_nil|].
        rewrite Husage. cbn. by rewrite lastNonEmpty_cons.
      * rewrite Forall_cons. split; [done|]. intros [H|[H _]].
        -- by apply (proj2 Hreturns (or_introl H)).
        -- by apply (proj2 Hreturns (or_intror H)).
      * apply Hempty.
Qed.

End BundleFacts.

(** ** Grouping by tag *)

Section TagFacts.

Import completion spec.

Lemma firstSeen_elem_of (l : list string) t : t ∈ firstSeen l ↔ t ∈ l.
Proof.
  induction l as [|a l IH]; cbn; [done|].
  rewrite !elem_of_cons, list_elem_of_filter, IH.
  destruct (decide (t = a)); tauto.
Qed.

Lemma firstSeen_NoDup (l : list string) : NoDup (firstSeen l).
Proof.
  induction l as [|a l IH]; cbn; constructor.
  - rewrite list_elem_of_filter. tauto.
  - by apply NoDup_filter.
Qed.

(** A tag met again changes nothing; a new tag comes last. *)
Lemma firstSeen_snoc (l : list string) t :
  firstSeen (l ++ [t]) = if decide (t ∈ l) then firstSeen l else firstSeen l ++ [t].
Proof.
  induction l as [|a l IH]; cbn.
  - rewrite decide_False; [done|]. by intros ?%elem_of_nil.
  - rewrite IH. destruct (decide (t = a)) as [->|Hne].
    + rewrite (decide_True (P := a ∈ a :: l)) by left.
      destruct (decide (a ∈ l)); [done|].
      rewrite filter_app, filter_cons, decide_False by (intros H; by apply H).
      by rewrite filter_nil, app_nil_r.
    + destruct (decide (t ∈ l)) as [Hin|Hin].
      * rewrite decide_True; [done|]. by right.
      * rewrite decide_False.
        -- rewrite filter_app, filter_cons, decide_True by done. done.
        -- rewrite elem_of_cons. tauto.
Qed.

Lemma withTag_snoc t (c : RawValues) v :
  withTag t (c ++ [v]) = withTag t c ++ (if decide (Tag v = t) then [v] else []).
Proof.
  unfold withTag. rewrite filter_app, filter_cons, filter_nil.
  by destruct (decide (Tag v = t)).
Qed.

Lemma withTag_elem_of t (c : RawValues) v : v ∈ withTag t c ↔ Tag v = t ∧ v ∈ c.
Proof. unfold withTag. by rewrite list_elem_of_filter. Qed.

Lemma withTag_absent t (c : RawValues) : t ∉ Tag <$> c → withTag t c = [].
Proof.
  intros Ht. destruct (withTag t c) as [|v g] eqn:Hg; [done|].
  assert (v ∈ withTag t c) as [Hv Hc]%withTag_elem_of by (rewrite Hg; left).
  destruct Ht. rewrite <- Hv. by apply list_elem_of_fmap_2.
Qed.

(** The state of the loop of [EachTag] once [c] is read: the tags in the
    order they were first met, and for each of them its candidates in the
    order of [c]. *)
Lemma eachTagGroups_spec (c : RawValues) :
  (eachTagGroups c).1 = firstSeen (Tag <$> c)
  ∧ ∀ t, (eachTagGroups c).2 !! t
         = if decide (t ∈ Tag <$> c) then Some (withTag t c) else None.
Proof.
  unfold eachTagGroups.
  induction c as [|v c [IHt IHg]] using rev_ind.
  - split; [done|]. intros t. cbn. rewrite lookup_empty.
    rewrite decide_False; [done|]. by intros ?%elem_of_nil.
  - rewrite foldl_snoc.
    destruct (foldl eachTagStep ([], ∅) c) as [tags tagGroups].
    cbn in IHt, IHg. subst tags.
    rewrite fmap_app. cbn [fmap list_fmap]. rewrite firstSeen_snoc.
    unfold eachTagStep. pose proof (IHg (Tag v)) as Hv.
    destruct (decide (Tag v ∈ Tag <$> c)) as [Hin|Hin]; rewrite Hv.
    + split; [done|]. intros t. cbn. rewrite Hv. cbn.
      destruct (decide (t = Tag v)) as [->|Hne].
      * rewrite lookup_insert_eq, withTag_snoc.
        rewrite (decide_True (P := Tag v = Tag v)) by done.
        rewrite decide_True; [done|]. rewrite elem_of_app. by left.
      * rewrite lookup_insert_ne, IHg by done.
        rewrite withTag_snoc, (decide_False (P := Tag v = t)), app_nil_r by done.
        apply decide_ext. rewrite elem_of_app, list_elem_of_singleton. tauto.
    + split; [done|]. intros t. cbn. rewrite lookup_insert_eq. cbn.
      destruct (decide (t = Tag v)) as [->|Hne].
      * rewrite lookup_insert_eq, withTag_snoc.
        rewrite (decide_True (P := Tag v = Tag v)) by done.
        rewrite withTag_absent by done.
        rewrite decide_True; [done|]. rewrite elem_of_app, list_elem_of_singleton.
        by right.
      * rewrite !lookup_insert_ne, IHg by done.
        rewrite withTag_snoc, (decide_False (P := Tag v = t)), app_nil_r by done.
        apply decide_ext. rewrite elem_of_app, list_elem_of_singleton. tauto.
Qed.

Lemma eachTagGroups_default (c : RawValues) t :
  default [] ((eachTagGroups c).2 !! t) = withTag t c.
Proof.
  destruct (eachTagGroups_spec c) as [_ ->].
  destruct (decide (t ∈ Tag <$> c)); [done|]. by rewrite withTag_absent.
Qed.

Lemma foldl_record {A B} (f : A → B) (acc : list B) (l : list A) :
  foldl (fun calls x => calls ++ [f x]) acc l = acc ++ (f <$> l).
Proof.
  revert acc. induction l as [|x l IH]; intros acc; cbn.
  - by rewrite app_nil_r.
  - by rewrite IH, <- app_assoc.
Qed.

(** The calls of [EachTag]: the tags in the order they were first met, each
    with its candidates in the order of [c]. *)
Lemma tagGroupsOf_spec (c : RawValues) :
  tagGroupsOf c = (fun t => (t, withTag t c)) <$> firstSeen (Tag <$> c).
Proof.
  unfold tagGroupsOf, EachTag.
  pose proof (eachTagGroups_default c) as Hd.
  destruct (eachTagGroups_spec c) as [Ht _].
  destruct (eachTagGroups c) as [tags tagGroups]. cbn in Ht, Hd. subst tags.
  rewrite (foldl_record (fun tag => (tag, default [] (tagGroups !! tag)))).
  cbn. apply list_fmap_ext. intros _ t _. by rewrite Hd.
Qed.

(** Whatever the callback, [EachTag] runs it on those calls, in order. *)
Lemma EachTag_calls {S} (c : RawValues) (tagF : string → RawValues → S → S) s :
  EachTag c tagF s = foldl (fun s call => tagF call.1 call.2 s) s (tagGroupsOf c).
Proof.
  rewrite tagGroupsOf_spec. unfold EachTag.
  pose proof (eachTagGroups_default c) as Hd.
  destruct (eachTagGroups_spec c) as [Ht _].
  destruct (eachTagGroups c) as [tags tagGroups]. cbn in Ht, Hd. subst tags.
  rewrite foldl_fmap. cbn.
  generalize (firstSeen (Tag <$> c)). intros l. revert s.
  induction l as [|t l IH]; intros s; cbn; [done|]. by rewrite Hd, IH.
Qed.

Lemma filter_tag_split t (ts : list string) (c : RawValues) :
  t ∉ ts →
  withTag t c ++ filter (fun v => Tag v ∈ ts) c
  ≡ₚ filter (fun v => Tag v ∈ t :: ts) c.
Proof.
  intros Ht. unfold withTag. induction c as [|v c IH]; [done|].
  rewrite !filter_cons.
  destruct (decide (Tag v = t)) as [Hv|Hv].
  - rewrite decide_False by congruence.
    rewrite decide_True by (rewrite Hv; left). cbn. by rewrite IH.
  - destruct (decide (Tag v ∈ ts)) as [Hin|Hin].
    + rewrite decide_True by (by right).
      rewrite <- Permutation_middle. by rewrite IH.
    + rewrite decide_False; [done|]. rewrite elem_of_cons. tauto.
Qed.

Lemma concat_withTag (ts : list string) (c : RawValues) :
  NoDup ts →
  concat ((fun t => withTag t c) <$> ts) ≡ₚ filter (fun v => Tag v ∈ ts) c.
Proof.
  induction 1 as [|t ts Ht _ IH]; cbn.
  - induction c as [|v c IHc]; [done|].
    rewrite filter_cons, decide_False; [done|]. by intros ?%elem_of_nil.
  - rewrite IH. by apply filter_tag_split.
Qed.

(** C6: [EachTag] calls back with the tags in the order they are first met
    in the list; the group of a tag is the candidates that carry it, in the
    order of the list, so that a candidate is in the group of its tag and in
    no other; and the groups, one after the other, are the candidates of the
    list. The calls are a function of the list. *)
Theorem EachTag_first_seen_groups (c : RawValues) :
  (tagGroupsOf c).*1 = firstSeen (Tag <$> c)
  ∧ NoDup (tagGroupsOf c).*1
  ∧ (∀ t g, (t, g) ∈ tagGroupsOf c → g = withTag t c)
  ∧ (∀ v, v ∈ c → ∃ g, (Tag v, g) ∈ tagGroupsOf c ∧ v ∈ g)
  ∧ (∀ v t g, (t, g) ∈ tagGroupsOf c → v ∈ g → Tag v = t)
  ∧ concat (tagGroupsOf c).*2 ≡ₚ c
  ∧ (∀ S (tagF : string → RawValues → S → S) s,
       EachTag c tagF s
       = foldl (fun s call => tagF call.1 call.2 s) s (tagGroupsOf c)).
Proof.
  assert ((tagGroupsOf c).*1 = firstSeen (Tag <$> c)) as Htags.
  { rewrite tagGroupsOf_spec, <- list_fmap_compose. apply list_fmap_id. }
  assert (∀ t g, (t, g) ∈ tagGroupsOf c → g = withTag t c) as Hgroup.
  { intros t g. rewrite tagGroupsOf_spec.
    intros (t' & [= -> ->] & _)%list_elem_of_fmap. done. }
  split; [done|]. split; [rewrite Htags; apply firstSeen_NoDup|].
  split; [done|]. split; [|split; [|split]].
  - intros v Hv. exists (withTag (Tag v) c). split.
    + rewrite tagGroupsOf_spec. apply list_elem_of_fmap.
      exists (Tag v). split; [done|]. apply firstSeen_elem_of.
      by apply list_elem_of_fmap_2.
    + by apply withTag_elem_of.
  - intros v t g Hg Hv. rewrite (Hgroup t g Hg) in Hv.
    by apply withTag_elem_of in Hv as [? _].
  - rewrite tagGroupsOf_spec, <- list_fmap_compose. cbn.
    rewrite (concat_withTag _ c (firstSeen_NoDup _)).
    clear Htags Hgroup. apply reflexive_eq.
    assert (Forall (fun v => Tag v ∈ firstSeen (Tag <$> c)) c) as Hall.
    { apply Forall_forall. intros v Hv. apply firstSeen_elem_of.
      by apply list_elem_of_fmap_2. }
    revert Hall. generalize (firstSeen (Tag <$> c)). intros ts.
    induction 1 as [|v c' Hv _ IH]; [done|].
    by rewrite filter_cons, decide_True, IH.
  - intros S tagF s. apply EachTag_calls.
Qed.

End TagFacts.

(** ** The commands *)

Section CommandFacts.

Import keymap readline spec.

Context {World : Type} `{!Shell World} `{!color.Palette}.

Abbreviation M := (M (World := World)).

(** Unfolds a command down to the calls it makes; what is left to decide
    is what the getters report. *)
Ltac run_command :=
  unfold completeWord, possibleCompletions, insertCompletions, menuComplete,
    deleteCharOrList, menuCompleteBackward, menuCompleteNextTag,
    menuCompletePrevTag, acceptAndMenuComplete, viRegistersComplete,
    menuIncrementalSearch, historyCompletion, historyCompletionDefault,
    startMenuComplete, bind, call, read, ret, calls, world;
  cbn.

Ltac by_cases_on_getters :=
  repeat match goal with
         | |- context [if negb ?b then _ else _] => destruct b; cbn
         end;
  try reflexivity.

Lemma startMenuComplete_run completer (w : World) :
  startMenuComplete completer w
  = (tt,
     exec (completer_GenerateWith completer)
       (exec (keymaps_SetLocal MenuSelect) (exec undo_SkipSave w)),
     [undo_SkipSave; keymaps_SetLocal MenuSelect;
      completer_GenerateWith completer]).
Proof. reflexivity. Qed.

Lemma possibleCompletions_run (w : World) :
  possibleCompletions w
  = (tt,
     exec (completer_GenerateWith commandCompletion)
       (exec (keymaps_SetLocal MenuSelect)
          (exec (completer_Cancel false false) (exec undo_SkipSave w))),
     [undo_SkipSave; completer_Cancel false false;
      keymaps_SetLocal MenuSelect; completer_GenerateWith commandCompletion]).
Proof. reflexivity. Qed.

Lemma completeWord_SkipSave (w : World) :
  head (calls (completeWord w)) = Some undo_SkipSave.
Proof. run_command. by_cases_on_getters. Qed.

Lemma possibleCompletions_SkipSave (w : World) :
  head (calls (possibleCompletions w)) = Some undo_SkipSave.
Proof. reflexivity. Qed.

Lemma menuComplete_SkipSave (w : World) :
  head (calls (menuComplete w)) = Some undo_SkipSave.
Proof. run_command. by_cases_on_getters. Qed.

Lemma menuCompleteBackward_SkipSave (w : World) :
  head (calls (menuCompleteBackward w)) = Some undo_SkipSave.
Proof. run_command. by_cases_on_getters. Qed.

Lemma menuCompleteNextTag_SkipSave (w : World) :
  head (calls (menuCompleteNextTag w)) = Some undo_SkipSave.
Proof. run_command. by_cases_on_getters. Qed.

Lemma menuCompletePrevTag_SkipSave (w : World) :
  head (calls (menuCompletePrevTag w)) = Some undo_SkipSave.
Proof. run_command. by_cases_on_getters. Qed.

Lemma acceptAndMenuComplete_SkipSave (w : World) :
  head (calls (acceptAndMenuComplete w)) = Some undo_SkipSave.
Proof. run_command. by_cases_on_getters. Qed.

Lemma viRegistersComplete_SkipSave (w : World) :
  head (calls (viRegistersComplete w)) = Some undo_SkipSave.
Proof. run_command. by_cases_on_getters. Qed.

Lemma menuIncrementalSearch_SkipSave (w : World) :
  head (calls (menuIncrementalSearch w)) = Some undo_SkipSave.
Proof. run_command. by_cases_on_getters. Qed.

(** With the cursor before the end of the line, [deleteCharOrList] cuts the
    rune under it and calls nothing else. *)
Lemma deleteCharOrList_cut (w : World) :
  cursor_Pos w < line_Len w →
  deleteCharOrList w
  = (tt, exec (line_CutRune (cursor_Pos w)) w, [line_CutRune (cursor_Pos w)]).
Proof.
  intros Hlt. run_command. apply Z.ltb_lt in Hlt as ->. reflexivity.
Qed.

(** With the cursor at the end of the line, [deleteCharOrList] is
    [possibleCompletions]. *)
Lemma deleteCharOrList_list (w : World) :
  ¬ cursor_Pos w < line_Len w → deleteCharOrList w = possibleCompletions w.
Proof.
  intros Hge. run_command. apply Z.ltb_nlt in Hge as ->. reflexivity.
Qed.

Lemma insertCompletions_run (w : World) : insertCompletions w = (tt, w, []).
Proof. reflexivity. Qed.

(** The entries of the table of commands. *)
Lemma completionCommands_entries name (cmd : M unit) :
  completionCommands !! name = Some cmd →
  (name, cmd) ∈
    [("complete", completeWord);
     ("possible-completions", possibleCompletions);
     ("insert-completions", insertCompletions);
     ("menu-complete", menuComplete);
     ("menu-complete-backward", menuCompleteBackward);
     ("delete-char-or-list", deleteCharOrList);
     ("menu-complete-next-tag", menuCompleteNextTag);
     ("menu-complete-prev-tag", menuCompletePrevTag);
     ("accept-and-menu-complete", acceptAndMenuComplete);
     ("vi-registers-complete", viRegistersComplete);
     ("menu-incremental-search", menuIncrementalSearch)].
Proof. apply elem_of_list_to_map_2. Qed.

(** C1, amended: a command of the table other than insert-completions and
    delete-char-or-list first calls [SkipSave], whatever the state;
    delete-char-or-list cuts the rune under the cursor without calling
    [SkipSave] when the cursor is before the end of the line, and first
    calls [SkipSave] otherwise; insert-completions calls nothing. *)
Theorem completionCommands_SkipSave name (cmd : M unit) :
  completionCommands !! name = Some cmd →
  (name ≠ "insert-completions" → name ≠ "delete-char-or-list" →
   ∀ w, head (calls (cmd w)) = Some undo_SkipSave)
  ∧ (name = "delete-char-or-list" →
     ∀ w, if decide (cursor_Pos w < line_Len w)
          then calls (cmd w) = [line_CutRune (cursor_Pos w)]
          else head (calls (cmd w)) = Some undo_SkipSave)
  ∧ (name = "insert-completions" → ∀ w, calls (cmd w) = []).
Proof.
  intros Hcmd%completionCommands_entries.
  repeat (apply elem_of_cons in Hcmd as [[= -> ->]|Hcmd]);
    [..|by apply elem_of_nil in Hcmd];
    (split; [intros Hi Hd w|split; [intros Hn w|intros Hn w]]);
    try done.
  - apply completeWord_SkipSave.
  - apply menuComplete_SkipSave.
  - apply menuCompleteBackward_SkipSave.
  - destruct (decide (cursor_Pos w < line_Len w)) as [Hlt|Hge].
    + by rewrite deleteCharOrList_cut.
    + by rewrite deleteCharOrList_list.
  - apply menuCompleteNextTag_SkipSave.
  - apply menuCompletePrevTag_SkipSave.
  - apply acceptAndMenuComplete_SkipSave.
  - apply viRegistersComplete_SkipSave.
  - apply menuIncrementalSearch_SkipSave.
Qed.

(** C8: with the cursor before the end of the line, delete-char-or-list
    cuts the rune at the position of the cursor and makes no other call;
    otherwise it does what possible-completions does, which cancels the
    completion ([false], [false]), sets the local keymap to menu-select and
    generates the completions of the command line. *)
Theorem deleteCharOrList_cut_or_list (w : World) :
  (cursor_Pos w < line_Len w →
   deleteCharOrList w
   = (tt, exec (line_CutRune (cursor_Pos w)) w, [line_CutRune (cursor_Pos w)])
   ∧ Forall (fun c => onCompleter c = false) (calls (deleteCharOrList w)))
  ∧ (¬ cursor_Pos w < line_Len w →
     deleteCharOrList w = possibleCompletions w)
  ∧ possibleCompletions w
    = (tt,
       exec (completer_GenerateWith commandCompletion)
         (exec (keymaps_SetLocal MenuSelect)
            (exec (completer_Cancel false false) (exec undo_SkipSave w))),
       [undo_SkipSave; completer_Cancel false false;
        keymaps_SetLocal MenuSelect; completer_GenerateWith commandCompletion]).
Proof.
  split; [|split].
  - intros Hlt. rewrite deleteCharOrList_cut by done. split; [done|].
    by repeat constructor.
  - apply deleteCharOrList_list.
  - apply possibleCompletions_run.
Qed.

(** C10: insert-completions, as the table has it, does nothing in any
    state: no call at all, [SkipSave] included, and the state as it was. *)
Theorem insertCompletions_does_nothing :
  completionCommands !! "insert-completions" = Some insertCompletions
  ∧ ∀ w : World,
      insertCompletions w = (tt, w, [])
      ∧ undo_SkipSave ∉ calls (insertCompletions w).
Proof.
  split; [reflexivity|]. intros w. split; [reflexivity|].
  by intros ?%elem_of_nil.
Qed.

Lemma append_assoc (a b c : string) : (a +:+ b) +:+ c = a +:+ (b +:+ c).
Proof.
  induction a as [|x a IH]; [done|].
  change (String x ((a +:+ b) +:+ c) = String x (a +:+ (b +:+ c))).
  by rewrite IH.
Qed.

Lemma noHistorySource_contains :
  contains noHistorySource "No command history source".
Proof.
  exists (color.Dim +:+ color.FgRed), (" " +:+ color.Reset).
  unfold noHistorySource. by rewrite append_assoc.
Qed.

(** What the [default] case of [historyCompletion] does. *)
Lemma historyCompletionDefault_run (forward filterLine incremental : bool)
    (w : World) :
  historyCompletionDefault forward filterLine incremental w
  = match histories_Current w with
    | None => (tt, exec (hint_Set noHistorySource) w, [hint_Set noHistorySource])
    | Some _ =>
        let completer := historiesComplete forward filterLine in
        if incremental then
          let generated := exec (completer_GenerateWith completer) w in
          let name := histories_Name generated in
          (tt, exec (completer_IsearchStart name true) generated,
           [completer_GenerateWith completer; completer_IsearchStart name true])
        else
          (tt,
           exec completer_AutocompleteForce
             (exec (completer_GenerateWith completer)
                (exec (keymaps_SetLocal MenuSelect) (exec undo_SkipSave w))),
           [undo_SkipSave; keymaps_SetLocal MenuSelect;
            completer_GenerateWith completer; completer_AutocompleteForce])
    end.
Proof.
  run_command. destruct (histories_Current w); [|done].
  by destruct incremental.
Qed.

(** The test of the first case of [historyCompletion]. *)
Lemma historyCompletion_browsing (w : World) :
  keymaps_Local w = MenuSelect ∨ keymaps_Local w = Isearch
  ∨ completer_AutoCompleting w = true ↔
  bool_decide (keymaps_Local w = MenuSelect)
  || bool_decide (keymaps_Local w = Isearch)
  || completer_AutoCompleting w = true.
Proof.
  rewrite !orb_true_iff, !bool_decide_eq_true. tauto.
Qed.

Lemma historyCompletion_last (forward filterLine incremental : bool) (w : World) :
  keymaps_Local w = MenuSelect ∨ keymaps_Local w = Isearch
  ∨ completer_AutoCompleting w = true →
  histories_OnLastSource w = true →
  historyCompletion forward filterLine incremental w
  = (tt,
     exec hint_Reset (exec completer_ResetForce (exec (histories_Cycle true) w)),
     [histories_Cycle true; completer_ResetForce; hint_Reset]).
Proof.
  intros Hb%historyCompletion_browsing Hlast.
  unfold historyCompletion, bind, read. rewrite Hb, Hlast. reflexivity.
Qed.

Lemma historyCompletion_next (forward filterLine incremental : bool) (w : World) :
  keymaps_Local w = MenuSelect ∨ keymaps_Local w = Isearch
  ∨ completer_AutoCompleting w = true →
  histories_OnLastSource w = false →
  historyCompletion forward filterLine incremental w
  = let r := historyCompletionDefault forward filterLine incremental
               (exec (histories_Cycle true) w) in
    (tt, world r, histories_Cycle true :: calls r).
Proof.
  intros Hb%historyCompletion_browsing Hlast.
  unfold historyCompletion, bind, read. rewrite Hb, Hlast.
  unfold call, calls, world. cbn -[historyCompletionDefault].
  by destruct (historyCompletionDefault _ _ _ _) as [[[] w'] l].
Qed.

Lemma historyCompletion_fresh (forward filterLine incremental : bool) (w : World) :
  keymaps_Local w ≠ MenuSelect → keymaps_Local w ≠ Isearch →
  completer_AutoCompleting w = false →
  historyCompletion forward filterLine incremental w
  = historyCompletionDefault forward filterLine incremental w.
Proof.
  intros Hm Hs Ha. unfold historyCompletion, bind, read.
  rewrite !bool_decide_eq_false_2, Ha by done. cbn -[historyCompletionDefault].
  by destruct (historyCompletionDefault _ _ _ _) as [[[] w'] l].
Qed.

(** C4: in menu-select or isearch mode, or with the completion forced, a
    history completion on the last source cycles the sources, resets the
    forced completion and the hint, and stops there, nothing being
    generated; on another source it cycles the sources and goes on as the
    default case does from the state reached, which, that state having a
    current source, generates the completions of the history. *)
Theorem historyCompletion_cycles (forward filterLine incremental : bool)
    (w : World) :
  keymaps_Local w = MenuSelect ∨ keymaps_Local w = Isearch
  ∨ completer_AutoCompleting w = true →
  let cycled := exec (histories_Cycle true) w in
  let run := historyCompletion forward filterLine incremental w in
  (histories_OnLastSource w = true →
   run = (tt, exec hint_Reset (exec completer_ResetForce cycled),
          [histories_Cycle true; completer_ResetForce; hint_Reset]))
  ∧ (histories_OnLastSource w = false →
     let next := historyCompletionDefault forward filterLine incremental cycled in
     world run = world next
     ∧ calls run = histories_Cycle true :: calls next
     ∧ (is_Some (histories_Current cycled) →
        calls next
        = if incremental then
            [completer_GenerateWith (historiesComplete forward filterLine);
             completer_IsearchStart
               (histories_Name
                  (exec (completer_GenerateWith
                           (historiesComplete forward filterLine)) cycled))
               true]
          else
            [undo_SkipSave; keymaps_SetLocal MenuSelect;
             completer_GenerateWith (historiesComplete forward filterLine);
             completer_AutocompleteForce])).
Proof.
  intros Hb cycled run. split.
  - intros Hlast. by apply historyCompletion_last.
  - intros Hlast next. subst run.
    rewrite historyCompletion_next by done. fold cycled. fold next.
    split; [done|]. split; [done|].
    intros [src Hsrc]. subst next.
    rewrite historyCompletionDefault_run, Hsrc. by destruct incremental.
Qed.

(** C9: with no history source, outside menu-select and isearch modes and
    with no completion forced, a history completion sets the hint to the
    dimmed text holding "No command history source" and makes no other call,
    none on the completion engine: a completion that was not active is not
    active afterwards, the hint being apart from the engine. *)
Theorem historyCompletion_no_source (forward filterLine incremental : bool)
    (w : World) :
  histories_Current w = None →
  keymaps_Local w ≠ MenuSelect → keymaps_Local w ≠ Isearch →
  completer_AutoCompleting w = false →
  let run := historyCompletion forward filterLine incremental w in
  run = (tt, exec (hint_Set noHistorySource) w, [hint_Set noHistorySource])
  ∧ noHistorySource
    = color.Dim +:+ color.FgRed +:+ "No command history source" +:+ " "
      +:+ color.Reset
  ∧ contains noHistorySource "No command history source"
  ∧ Forall (fun c => onCompleter c = false) (calls run)
  ∧ ((∀ text w', completer_IsActive (exec (hint_Set text) w')
                 = completer_IsActive w') →
     completer_IsActive w = false →
     completer_IsActive (world run) = false).
Proof.
  intros Hnone Hm Hs Ha run. subst run.
  rewrite historyCompletion_fresh, historyCompletionDefault_run, Hnone by done.
  split; [done|]. split; [done|]. split; [apply noHistorySource_contains|].
  split; [by repeat constructor|].
  intros Hframe Hinactive. unfold world. cbn. by rewrite Hframe.
Qed.

End CommandFacts.

(** ** The properties on concrete inputs *)

Section Examples.

Import keymap completion readline simulation spec.

Abbreviation FilterPrefix := (completion.FilterPrefix noUnicode).
Abbreviation Less := (completion.Less noUnicode).

(** With the case mattering, the prefix "ab" keeps "abc": it is not so that
    it keeps neither of "ABC" and "abc". *)
Lemma FilterPrefix_matchCase_keeps_abc :
  ¬ ((∀ x, x ∈ [cABC; cabc] → x ∈ FilterPrefix [cABC; cabc] "ab" false)
     ∧ (∀ x, x ∈ [cABC; cabc] → x ∉ FilterPrefix [cABC; cabc] "ab" true)).
Proof.
  intros [_ Hneither]. apply (Hneither cabc).
  - right. left.
  - left.
Qed.

Lemma FilterPrefix_ABC_abc_example :
  [cABC; cabc] ≡ₚ [cABC; cabc]
  ∧ FilterPrefix [cABC; cabc] "ab" false = [cABC; cabc]
  ∧ FilterPrefix [cABC; cabc] "ab" true = [cabc].
Proof.
  split; [reflexivity|].
  apply (FilterPrefix_ABC_abc noUnicode [cABC; cabc] cABC cabc);
    reflexivity.
Defined.

Lemma FilterPrefix_abc_ABC_swapped :
  FilterPrefix [cabc; cABC] "ab" false = [cabc; cABC]
  ∧ FilterPrefix [cabc; cABC] "ab" true = [cabc].
Proof. split; reflexivity. Qed.

Lemma Less_value_against_display_example :
  ∃ xi xj b,
    [cABC; cabc] !! Z.to_nat 0 = Some xi ∧ [cABC; cabc] !! Z.to_nat 1 = Some xj
    ∧ Less [cABC; cabc] 0 1 = Some b
    ∧ (b = true ↔ strings.lex_lt (strings.ToLower noUnicode (Value xi))
                                 (strings.ToLower noUnicode (Display xj))).
Proof.
  apply (Less_value_against_display noUnicode [cABC; cabc] 0 1);
    unfold Len; cbn; lia.
Defined.

(** The comparison is of the value with the display: a candidate shown as
    "zsh" with the value "bash" is not before one shown as "alpha", of value
    "fish", though its value is smaller. *)
Example Less_not_value_against_value :
  let x := [mkCandidate "bash" "zsh" "" false;
            mkCandidate "fish" "alpha" "" false] in
  Less x 0 1 = Some false
  ∧ strings.less (Value (mkCandidate "bash" "zsh" "" false))
                 (Value (mkCandidate "fish" "alpha" "" false)) = true.
Proof. split; reflexivity. Qed.

Lemma Merge_grows_usage_last_example :
  Messages (receiver (mergeAll files [flags; commands; flags])) !! "files"
  = Some "permission denied"
  ∧ tagLookup (ListLong (receiver (mergeAll files [flags; commands; flags])))
      "files" = Some false
  ∧ Usage (receiver (mergeAll files [flags; commands; flags]))
    = "commands of the shell"
  ∧ returns (mergeAll files [flags; commands; flags]) = true
  ∧ Usage (receiver (Merge files flags)) = "files of the directory".
Proof.
  destruct (Merge_grows_usage_last files [flags; commands; flags])
    as (Hmessages & Hlong & Husage & _ & Hreturns & Hempty).
  split; [by apply Hmessages|]. split; [by apply Hlong|].
  assert (returns (mergeAll files [flags; commands; flags]) = true) as Hr
    by (apply Hreturns; left; by eexists).
  destruct (mergeAll files [flags; commands; flags]) as [r|r] eqn:Hall;
    [|discriminate Hr].
  split; [cbn [receiver]; by rewrite (Husage r eq_refl)|].
  split; [done|]. by apply Hempty.
Defined.

Example Merge_new_entries :
  Messages (receiver (Merge files flags)) !! "flags" = Some "deprecated"
  ∧ tagLookup (ListLong (receiver (Merge files flags))) "flags" = Some true
  ∧ MergeIn ["flags"; "flags"] files flags = Merge files flags.
Proof. repeat split; by vm_compute. Qed.

(** Merging tags into a bundle whose map was never made panics, the usage
    already merged; with no tag to merge it returns. *)
Example Merge_nil_map :
  Merge history flags
  = Panicked (mkValues [foo] "history of the shell" ∅
                {["files" := "not found"; "flags" := "deprecated"]} None)
  ∧ Merge zero commands
    = Panicked (mkValues [] "commands of the shell" ∅ ∅ None)
  ∧ Merge history zero = Returned history
  ∧ mergeAll history [zero; commands; flags]
    = Panicked (mkValues [foo] "commands of the shell" ∅ ∅ None).
Proof. repeat split; by vm_compute. Qed.

Example tagGroupsOf_example :
  tagGroupsOf [foo; help; bar] = [("files", [foo; bar]); ("flags", [help])].
Proof. by vm_compute. Qed.

Lemma EachTag_first_seen_groups_example :
  (tagGroupsOf [foo; help; bar]).*1 = ["files"; "flags"]
  ∧ (∃ g, (Tag bar, g) ∈ tagGroupsOf [foo; help; bar] ∧ bar ∈ g)
  ∧ concat (tagGroupsOf [foo; help; bar]).*2 ≡ₚ [foo; help; bar].
Proof.
  destruct (EachTag_first_seen_groups [foo; help; bar])
    as (Htags & _ & _ & Hin & _ & Hall & _).
  split; [by rewrite Htags|]. split; [|done].
  apply Hin. right. right. left.
Defined.

(** The table has insert-completions, which calls nothing: it is not so that
    every command of the table first calls [SkipSave]. *)
Lemma completionCommands_not_all_SkipSave :
  ¬ (∀ name (cmd : M unit),
       completionCommands (World := State) !! name = Some cmd →
       ∀ w, head (calls (cmd w)) = Some undo_SkipSave).
Proof.
  intros Hall.
  specialize (Hall "insert-completions" insertCompletions eq_refl
                (editing [] 3)).
  discriminate Hall.
Qed.

(** Nor does delete-char-or-list call it when it deletes. *)
Example deleteCharOrList_no_SkipSave :
  completionCommands (World := State) !! "delete-char-or-list"
  = Some deleteCharOrList
  ∧ calls (deleteCharOrList (editing [] 3)) = [line_CutRune 3]
  ∧ len (world (deleteCharOrList (editing [] 3))) = 4.
Proof. repeat split. Qed.

Lemma completionCommands_SkipSave_example :
  completionCommands (World := State) !! "menu-complete" = Some menuComplete
  ∧ "menu-complete" ≠ "insert-completions"
  ∧ "menu-complete" ≠ "delete-char-or-list"
  ∧ head (calls (menuComplete (editing [] 3))) = Some undo_SkipSave.
Proof.
  split; [reflexivity|]. split; [discriminate|]. split; [discriminate|].
  apply (proj1 (completionCommands_SkipSave "menu-complete" menuComplete
                  eq_refl)); discriminate.
Defined.

Lemma deleteCharOrList_cut_or_list_example :
  deleteCharOrList (editing [] 3)
  = (tt, run (line_CutRune 3) (editing [] 3), [line_CutRune 3])
  ∧ deleteCharOrList (editing [] 5) = possibleCompletions (editing [] 5)
  ∧ calls (deleteCharOrList (editing [] 5))
    = [undo_SkipSave; completer_Cancel false false;
       keymaps_SetLocal MenuSelect; completer_GenerateWith commandCompletion].
Proof.
  destruct (deleteCharOrList_cut_or_list (editing [] 3)) as (Hcut & _ & _).
  destruct (deleteCharOrList_cut_or_list (editing [] 5)) as (_ & Hlist & Hrun).
  split; [apply Hcut; reflexivity|].
  split; [apply Hlist; cbn; lia|].
  rewrite Hlist by (cbn; lia). by rewrite Hrun.
Defined.

Lemma historyCompletion_cycles_example :
  historyCompletion true false false (browsing ["shell"; "session"] 1)
  = (tt, mkState 5 5 true false false MenuSelect ["shell"; "session"] 0 "",
     [histories_Cycle true; completer_ResetForce; hint_Reset])
  ∧ calls (historyCompletion true false false (browsing ["shell"; "session"] 0))
    = [histories_Cycle true; undo_SkipSave; keymaps_SetLocal MenuSelect;
       completer_GenerateWith (historiesComplete true false);
       completer_AutocompleteForce].
Proof.
  destruct (historyCompletion_cycles true false false
              (browsing ["shell"; "session"] 1)) as [Hlast _]; [by left|].
  destruct (historyCompletion_cycles true false false
              (browsing ["shell"; "session"] 0)) as [_ Hnext]; [by left|].
  split; [exact (Hlast eq_refl)|].
  destruct (Hnext eq_refl) as (_ & Hcalls & Hopen).
  rewrite Hcalls, Hopen; [reflexivity|]. by exists "session".
Defined.

Lemma historyCompletion_no_source_example :
  historyCompletion true false false (editing [] 5)
  = (tt,
     mkState 5 5 false false false (Other "emacs") [] 0
       "<dim><red>No command history source <reset>",
     [hint_Set "<dim><red>No command history source <reset>"])
  ∧ active (world (historyCompletion true false false (editing [] 5))) = false.
Proof.
  destruct (historyCompletion_no_source true false false (editing [] 5))
    as (Hrun & _ & _ & _ & Hinactive); [done..|].
  split; [exact Hrun|]. apply Hinactive; [|done].
  by intros text [].
Defined.

End Examples.

(** * Further properties of the code *)

(** ** Strings, continued *)

Section MoreStringFacts.

Import strings.

Lemma is_prefix_refl s : is_prefix s s.
Proof. induction s; by constructor. Qed.

Lemma is_prefix_trans p q s : is_prefix p q → is_prefix q s → is_prefix p s.
Proof.
  intros Hpq. revert s. induction Hpq as [q|c p q _ IH]; intros s Hqs.
  - constructor.
  - inversion Hqs; subst. constructor. by apply IH.
Qed.

Lemma is_prefix_allBytes (P : ascii → bool) p s :
  is_prefix p s → allBytes P s = true → allBytes P p = true.
Proof.
  induction 1 as [s|c p s _ IH]; cbn; [done|].
  rewrite !andb_true_iff. intros [Hc Hs]. split; [done|]. by apply IH.
Qed.

Lemma is_prefix_mapBytes (f : ascii → ascii) p s :
  is_prefix p s → is_prefix (mapBytes f p) (mapBytes f s).
Proof. induction 1; cbn; by constructor. Qed.

Lemma mapBytes_lowerByte_lower s :
  anyByte isUpperByte s = false → mapBytes lowerByte s = s.
Proof.
  induction s as [|c s IH]; cbn; [done|].
  rewrite orb_false_iff. intros [Hc Hs]. rewrite IH by done.
  unfold lowerByte. by rewrite Hc.
Qed.

(** Folding an ASCII string lowers each of its bytes. *)
Lemma ToLower_ascii u s :
  allBytes isASCIIByte s = true → ToLower u s = mapBytes lowerByte s.
Proof.
  intros Hs. unfold ToLower. rewrite Hs.
  destruct (anyByte isUpperByte s) eqn:Hu; [done|].
  by rewrite mapBytes_lowerByte_lower.
Qed.

Lemma ToLower_ascii_prefix u p s :
  allBytes isASCIIByte s = true → is_prefix p s →
  is_prefix (ToLower u p) (ToLower u s).
Proof.
  intros Hs Hp. rewrite !ToLower_ascii; [by apply is_prefix_mapBytes|done|].
  by apply (is_prefix_allBytes _ p s).
Qed.

Lemma less_trans a b c :
  less a b = true → less b c = true → less a c = true.
Proof.
  revert b c. induction a as [|x a IH]; intros [|y b] [|z c]; cbn; try done.
  destruct (N.ltb_spec (N_of_ascii x) (N_of_ascii y)),
           (N.ltb_spec (N_of_ascii y) (N_of_ascii x)),
           (N.ltb_spec (N_of_ascii y) (N_of_ascii z)),
           (N.ltb_spec (N_of_ascii z) (N_of_ascii y)),
           (N.ltb_spec (N_of_ascii x) (N_of_ascii z)),
           (N.ltb_spec (N_of_ascii z) (N_of_ascii x));
    try done; try lia.
  apply IH.
Qed.

Lemma less_asym a b : less a b = true → less b a = false.
Proof.
  intros Hab. destruct (less b a) eqn:Hba; [|done].
  by rewrite <- (less_irrefl a), <- (less_trans a b a Hab Hba).
Qed.

End MoreStringFacts.

(** ** Candidate lists, continued *)

Section MoreValuesFacts.

Import strings completion spec.

Variable unicodeLower : string -> string.

Abbreviation ToLower := (strings.ToLower unicodeLower).
Abbreviation FilterPrefix := (completion.FilterPrefix unicodeLower).
Abbreviation Less := (completion.Less unicodeLower).
Abbreviation key := (spec.key unicodeLower).

Lemma filter_all {A} (P : A → Prop) `{!∀ x, Decision (P x)} (l : list A) :
  Forall P l → filter P l = l.
Proof.
  induction 1 as [|x l Hx _ IH]; [done|].
  by rewrite filter_cons, decide_True, IH.
Qed.

(** Filtering twice when, on the list, the first test entails the second. *)
Lemma filter_filter_entailed {A} (P Q : A → Prop) `{!∀ x, Decision (P x)}
    `{!∀ x, Decision (Q x)} (l : list A) :
  Forall (fun x => P x → Q x) l → filter P (filter Q l) = filter P l.
Proof.
  induction 1 as [|x l Hx _ IH]; [done|].
  rewrite !filter_cons. destruct (decide (Q x)) as [HQ|HQ].
  - rewrite filter_cons. destruct (decide (P x)); by rewrite IH.
  - rewrite IH. by rewrite decide_False by tauto.
Qed.

Lemma key_empty matchCase : key matchCase "" = "".
Proof. by destruct matchCase. Qed.

(** [FilterPrefix], the empty prefix included, keeps the candidates whose
    key starts with the key of the prefix. *)
Lemma FilterPrefix_filter_all (c : RawValues) prefix matchCase :
  FilterPrefix c prefix matchCase
  = filter (fun raw => is_prefix (key matchCase prefix)
                                 (key matchCase (Value raw))) c.
Proof.
  destruct (decide (prefix = "")) as [->|Hne].
  - rewrite FilterPrefix_empty, key_empty. symmetry. apply filter_all.
    apply Forall_forall. intros raw _. constructor.
  - by apply FilterPrefix_filter.
Qed.

(** X1: [Filter] returns the list without the candidates whose value is
    among the values given: each other candidate is kept, as many times as
    it occurs and in the order of the list. *)
Theorem Filter_keeps_unlisted (c : RawValues) (values : list string) :
  Filter c values = filter (fun raw => Value raw ∉ values) c
  ∧ (∀ raw, raw ∈ Filter c values ↔ raw ∈ c ∧ Value raw ∉ values)
  ∧ Filter c values `sublist_of` c.
Proof.
  rewrite Filter_filter. split; [done|]. split.
  - intros raw. rewrite list_elem_of_filter. tauto.
  - apply sublist_filter.
Qed.

(** X2: removing values in two rounds is removing all of them at once,
    whichever round comes first; removing no value gives the list back. *)
Theorem Filter_compose (c : RawValues) (a b : list string) :
  Filter (Filter c a) b = Filter c (a ++ b)
  ∧ Filter (Filter c a) b = Filter (Filter c b) a
  ∧ Filter c [] = c.
Proof.
  rewrite !Filter_filter. split; [|split].
  - rewrite list_filter_filter. apply list_filter_iff. intros raw.
    rewrite not_elem_of_app. tauto.
  - rewrite !list_filter_filter. apply list_filter_iff. tauto.
  - apply filter_all. apply Forall_forall. intros raw _. apply not_elem_of_nil.
Qed.

(** X3: removing values and filtering by a prefix can be done in either
    order. *)
Theorem Filter_FilterPrefix_commute (c : RawValues) (values : list string)
    (prefix : string) (matchCase : bool) :
  FilterPrefix (Filter c values) prefix matchCase
  = Filter (FilterPrefix c prefix matchCase) values.
Proof.
  rewrite !FilterPrefix_filter_all, !Filter_filter, !list_filter_filter.
  apply list_filter_iff. tauto.
Qed.

(** X4: for every prefix, the empty one included, [FilterPrefix] returns
    the list without the candidates whose value, folded unless the case
    matters, does not start with the prefix, folded likewise: each other
    candidate is kept, as many times as it occurs and in the order of the
    list. *)
Theorem FilterPrefix_keeps_prefixed (c : RawValues) (prefix : string)
    (matchCase : bool) :
  FilterPrefix c prefix matchCase
  = filter (fun raw => is_prefix (key matchCase prefix)
                                 (key matchCase (Value raw))) c
  ∧ (∀ raw, raw ∈ FilterPrefix c prefix matchCase
            ↔ raw ∈ c ∧ is_prefix (key matchCase prefix)
                                  (key matchCase (Value raw)))
  ∧ FilterPrefix c prefix matchCase `sublist_of` c.
Proof.
  rewrite FilterPrefix_filter_all. split; [done|]. split.
  - intros raw. rewrite list_elem_of_filter. tauto.
  - apply sublist_filter.
Qed.

Lemma key_prefix (p q : string) (matchCase : bool) :
  is_prefix p q → matchCase = true ∨ allBytes isASCIIByte q = true →
  is_prefix (key matchCase p) (key matchCase q).
Proof.
  intros Hpq [->|Hq]; [done|].
  destruct matchCase; [done|]. by apply ToLower_ascii_prefix.
Qed.

(** X5: typing on narrows what was kept. When [p] starts [q] (and, if the
    case does not matter, [q] is ASCII), filtering by [q] what was filtered
    by [p] is filtering by [q], and filtering by [p] what was filtered by
    [q] changes nothing. *)
Theorem FilterPrefix_narrows (c : RawValues) (p q : string) (matchCase : bool) :
  is_prefix p q → matchCase = true ∨ allBytes isASCIIByte q = true →
  FilterPrefix (FilterPrefix c p matchCase) q matchCase
  = FilterPrefix c q matchCase
  ∧ FilterPrefix (FilterPrefix c q matchCase) p matchCase
    = FilterPrefix c q matchCase.
Proof.
  intros Hpq Hcase. pose proof (key_prefix p q matchCase Hpq Hcase) as Hkey.
  rewrite !FilterPrefix_filter_all. split.
  - apply list_filter_filter_l. intros raw. by apply is_prefix_trans.
  - apply list_filter_filter_r. intros raw. by apply is_prefix_trans.
Qed.

(** X6: on candidates whose values are ASCII, what the prefix keeps with
    the case mattering is among what it keeps without: filtering with the
    case after filtering without it is filtering with the case. *)
Theorem FilterPrefix_matchCase_within (c : RawValues) (prefix : string) :
  Forall (fun raw => allBytes isASCIIByte (Value raw) = true) c →
  FilterPrefix (FilterPrefix c prefix false) prefix true
  = FilterPrefix c prefix true.
Proof.
  intros Hascii. rewrite !FilterPrefix_filter_all.
  apply filter_filter_entailed.
  eapply Forall_impl; [exact Hascii|]. intros raw Hraw Hp. cbn in *.
  by apply ToLower_ascii_prefix.
Qed.

(** X7: two prefix filters, whatever their prefixes and case flags, give
    the same list in either order. *)
Theorem FilterPrefix_commute (c : RawValues) (p q : string)
    (matchCase matchCase' : bool) :
  FilterPrefix (FilterPrefix c p matchCase) q matchCase'
  = FilterPrefix (FilterPrefix c q matchCase') p matchCase.
Proof.
  rewrite !FilterPrefix_filter_all, !list_filter_filter.
  apply list_filter_iff. tauto.
Qed.

End MoreValuesFacts.

(** ** Ordering and swapping *)

Section OrderFacts.

Import strings completion spec.

Variable unicodeLower : string -> string.

Abbreviation ToLower := (strings.ToLower unicodeLower).
Abbreviation Less := (completion.Less unicodeLower).

Lemma index_lookup (x : RawValues) (i : Z) xi :
  index x i = Some xi ↔ 0 ≤ i < Len x ∧ x !! Z.to_nat i = Some xi.
Proof.
  unfold index, Len.
  destruct (Z.leb_spec 0 i), (Z.ltb_spec i (Z.of_nat (length x))); cbn;
    split; try done; try lia; tauto.
Qed.

Lemma index_decide (x : RawValues) (k : Z) :
  index x k = if decide (0 ≤ k < Len x) then x !! Z.to_nat k else None.
Proof.
  unfold index, Len.
  destruct (Z.leb_spec 0 k), (Z.ltb_spec k (Z.of_nat (length x))); cbn;
    case_decide; try done; lia.
Qed.

Lemma index_elem_of (x : RawValues) (i : Z) xi : index x i = Some xi → xi ∈ x.
Proof. intros [_ Hxi]%index_lookup. by eapply list_elem_of_lookup_2. Qed.

Lemma Less_Some (x : RawValues) (i j : Z) b :
  Less x i j = Some b ↔
  ∃ xi xj, index x i = Some xi ∧ index x j = Some xj
           ∧ b = less (ToLower (Value xi)) (ToLower (Display xj)).
Proof.
  unfold completion.Less. split.
  - destruct (index x i) as [xi|]; [|done].
    destruct (index x j) as [xj|]; [|done]. cbn. intros [= <-]. eauto.
  - intros (xi & xj & -> & -> & ->). done.
Qed.

(** X8: on candidates displayed as their value, [Less] is a strict order
    on the indices: no candidate is before itself, two candidates are not
    each before the other, and being before carries over. *)
Theorem Less_strict_order (x : RawValues) :
  Forall (fun raw => Display raw = Value raw) x →
  (∀ i, Less x i i ≠ Some true)
  ∧ (∀ i j, Less x i j = Some true → Less x j i = Some false)
  ∧ (∀ i j k, Less x i j = Some true → Less x j k = Some true →
              Less x i k = Some true).
Proof.
  intros Hshown.
  assert (∀ i xi, index x i = Some xi → Display xi = Value xi) as Hsame.
  { intros i xi Hxi%index_elem_of. by eapply Forall_forall in Hshown. }
  split; [|split].
  - intros i (xi & xi' & Hi & Hi' & Hlt)%Less_Some.
    rewrite Hi in Hi'. injection Hi' as <-.
    rewrite (Hsame i xi Hi), less_irrefl in Hlt. done.
  - intros i j (xi & xj & Hi & Hj & Hlt)%Less_Some.
    apply Less_Some. exists xj, xi. repeat split; try done.
    rewrite (Hsame j xj Hj) in Hlt. rewrite (Hsame i xi Hi).
    symmetry. by apply less_asym.
  - intros i j k (xi & xj & Hi & Hj & Hij)%Less_Some
                 (xj' & xk & Hj' & Hk & Hjk)%Less_Some.
    rewrite Hj in Hj'. injection Hj' as <-.
    apply Less_Some. exists xi, xk. repeat split; try done.
    rewrite (Hsame j xj Hj) in Hij. symmetry. by eapply less_trans.
Qed.

Lemma Len_insert (x : RawValues) n v : Len (<[n := v]> x) = Len x.
Proof. unfold Len. by rewrite length_insert. Qed.

(** [Swap] returns when both indices are in range, and only then. *)
Lemma Swap_Some (x x' : RawValues) (i j : Z) :
  Swap x i j = Some x' ↔
  ∃ xi xj, index x i = Some xi ∧ index x j = Some xj
           ∧ x' = <[Z.to_nat j := xi]> (<[Z.to_nat i := xj]> x).
Proof.
  unfold Swap. split.
  - destruct (index x i) as [xi|]; [|done].
    destruct (index x j) as [xj|]; [|done]. cbn. intros [= <-]. eauto.
  - intros (xi & xj & -> & -> & ->). done.
Qed.

(** What is at an index of the list once [i] and [j] are swapped. *)
Lemma Swap_index (x x' : RawValues) (i j k : Z) :
  Swap x i j = Some x' →
  index x' k = if decide (k = i) then index x j
               else if decide (k = j) then index x i
               else index x k.
Proof.
  intros (xi & xj & Hi & Hj & ->)%Swap_Some.
  pose proof Hi as [Hir Hli]%index_lookup.
  pose proof Hj as [Hjr Hlj]%index_lookup.
  rewrite index_decide, !Len_insert. unfold Len in *.
  destruct (decide (k = i)) as [->|Hki].
  - rewrite decide_True by done. rewrite Hj.
    destruct (decide (i = j)) as [->|Hij].
    + rewrite list_lookup_insert_eq; [congruence|]. rewrite length_insert. lia.
    + rewrite list_lookup_insert_ne by lia.
      rewrite list_lookup_insert_eq; [done|lia].
  - destruct (decide (k = j)) as [->|Hkj].
    + rewrite decide_True by done. rewrite Hi.
      rewrite list_lookup_insert_eq; [done|]. rewrite length_insert. lia.
    + rewrite index_decide. unfold Len. case_decide as Hkr; [|done].
      by rewrite !list_lookup_insert_ne by lia.
Qed.

(** X9: [Swap] returns exactly when both indices are in range. The list
    it returns has the same length and the same candidates, those at [i] and
    [j] exchanged and every other in its place, and swapping again gives the
    list back. *)
Theorem Swap_exchanges (x : RawValues) (i j : Z) :
  (is_Some (Swap x i j) ↔ 0 ≤ i < Len x ∧ 0 ≤ j < Len x)
  ∧ ∀ x', Swap x i j = Some x' →
      Len x' = Len x
      ∧ x' ≡ₚ x
      ∧ index x' i = index x j
      ∧ index x' j = index x i
      ∧ (∀ k, k ≠ i → k ≠ j → index x' k = index x k)
      ∧ Swap x' i j = Some x.
Proof.
  split.
  - split.
    + intros [x' (xi & xj & [Hi _]%index_lookup & [Hj _]%index_lookup & _)%Swap_Some].
      done.
    + intros [Hi Hj].
      destruct (lookup_lt_is_Some_2 x (Z.to_nat i)) as [xi Hxi];
        [unfold Len in *; lia|].
      destruct (lookup_lt_is_Some_2 x (Z.to_nat j)) as [xj Hxj];
        [unfold Len in *; lia|].
      eexists. apply Swap_Some. exists xi, xj.
      split; [by apply index_lookup|]. split; [by apply index_lookup|done].
  - intros x' Hswap.
    pose proof (fun k => Swap_index x x' i j k Hswap) as Hindex.
    pose proof Hswap as (xi & xj & Hi & Hj & Hx')%Swap_Some.
    pose proof Hi as [Hir Hli]%index_lookup.
    pose proof Hj as [Hjr Hlj]%index_lookup.
    assert (Len x' = Len x) as Hlen by (by rewrite Hx', !Len_insert).
    split; [done|]. split; [|split; [|split; [|split]]].
    + rewrite Hx'. by apply Permutation_insert_swap.
    + by rewrite Hindex, decide_True.
    + rewrite Hindex. destruct (decide (j = i)) as [->|]; [done|].
      by rewrite decide_True.
    + intros k Hki Hkj. by rewrite Hindex, !decide_False.
    + apply Swap_Some. exists xj, xi.
      split; [by rewrite Hindex, decide_True|].
      split; [rewrite Hindex; destruct (decide (j = i)) as [->|];
              [done|by rewrite decide_True]|].
      apply list_eq. intros n.
      destruct (decide (n = Z.to_nat j)) as [->|Hnj].
      * rewrite list_lookup_insert_eq; [done|].
        rewrite length_insert. unfold Len in *.
        rewrite Hx', !length_insert. lia.
      * rewrite list_lookup_insert_ne by done.
        destruct (decide (n = Z.to_nat i)) as [->|Hni].
        -- rewrite list_lookup_insert_eq; [done|].
           unfold Len in *. rewrite Hx', !length_insert. lia.
        -- rewrite list_lookup_insert_ne by done.
           rewrite Hx'. by rewrite !list_lookup_insert_ne.
Qed.

(** X10: once [i] and [j] are swapped, [Less] sees at [i] and [j] what it
    saw at [j] and [i]. *)
Theorem Less_after_Swap (x x' : RawValues) (i j : Z) :
  Swap x i j = Some x' →
  Less x' i j = Less x j i ∧ Less x' j i = Less x i j.
Proof.
  intros Hswap.
  pose proof (Swap_index x x' i j i Hswap) as Hi.
  pose proof (Swap_index x x' i j j Hswap) as Hj.
  rewrite decide_True in Hi by done.
  assert (index x' j = index x i) as Hj'.
  { rewrite Hj. destruct (decide (j = i)) as [->|]; [done|].
    by rewrite decide_True. }
  unfold completion.Less. by rewrite Hi, Hj'.
Qed.

End OrderFacts.

(** ** Grouping by tag, continued *)

Section MoreTagFacts.

Import completion spec.


Lemma filter_none {A} (P : A → Prop) `{!∀ x, Decision (P x)} (l : list A) :
  Forall (fun x => ¬ P x) l → filter P l = [].
Proof.
  induction 1 as [|x l Hx _ IH]; [done|].
  by rewrite filter_cons, decide_False, IH.
Qed.

Lemma firstSeen_app (l1 l2 : list string) :
  firstSeen (l1 ++ l2)
  = firstSeen l1 ++ filter (fun t => t ∉ l1) (firstSeen l2).
Proof.
  induction l1 as [|a l1 IH]; cbn.
  - symmetry. apply filter_all. apply Forall_forall. intros t _.
    apply not_elem_of_nil.
  - rewrite IH, filter_app, list_filter_filter. do 2 f_equal.
    apply list_filter_iff. intros t. rewrite not_elem_of_cons. tauto.
Qed.

(** A list that repeats one tag has that tag for its first-seen tags. *)
Lemma firstSeen_same (t : string) (l : list string) :
  l ≠ [] → Forall (fun u => u = t) l → firstSeen l = [t].
Proof.
  intros Hne Hall. destruct Hall as [|u l -> Hall]; [done|]. cbn. f_equal.
  apply filter_none. apply Forall_forall. intros u Hu.
  apply (proj1 (firstSeen_elem_of _ _)) in Hu.
  pose proof (proj1 (Forall_forall _ _) Hall u Hu) as Hut. cbn in Hut. tauto.
Qed.

Lemma withTag_app t (a b : RawValues) :
  withTag t (a ++ b) = withTag t a ++ withTag t b.
Proof. apply filter_app. Qed.

Lemma withTag_all t (g : RawValues) :
  Forall (fun v => Tag v = t) g → withTag t g = g.
Proof. apply filter_all. Qed.

Lemma withTag_other t u (g : RawValues) :
  u ≠ t → Forall (fun v => Tag v = t) g → withTag u g = [].
Proof.
  intros Hne Hall. apply filter_none.
  eapply Forall_impl; [exact Hall|]. cbn. congruence.
Qed.

Lemma tagged_tags (blocks : list (string * RawValues)) :
  tagged blocks →
  Forall (fun t => t ∈ blocks.*1) (Tag <$> concat blocks.*2).
Proof.
  induction 1 as [|[t g] blocks [_ Hg] _ IH]; cbn; [done|].
  rewrite fmap_app. apply Forall_app. split.
  - apply Forall_fmap. eapply Forall_impl; [exact Hg|]. cbn.
    intros v ->. left.
  - eapply Forall_impl; [exact IH|]. cbn. intros u Hu. by right.
Qed.

Lemma tagged_firstSeen (blocks : list (string * RawValues)) :
  NoDup blocks.*1 → tagged blocks →
  firstSeen (Tag <$> concat blocks.*2) = blocks.*1.
Proof.
  intros Hnodup Hblocks. induction Hblocks as [|[t g] blocks [Hne Hg] Hbs IH];
    cbn in *; [done|].
  apply NoDup_cons in Hnodup as [Ht Hnodup].
  rewrite fmap_app, firstSeen_app, (firstSeen_same t).
  - cbn. f_equal. rewrite IH by done. apply filter_all.
    apply Forall_forall. intros u Hu Hin.
    apply list_elem_of_fmap in Hin as (v & -> & Hv).
    pose proof (proj1 (Forall_forall _ _) Hg v Hv) as Hvt. cbn in Hvt.
    rewrite Hvt in Hu. by apply Ht.
  - by destruct g.
  - by apply Forall_fmap.
Qed.

Lemma tagged_withTag (blocks : list (string * RawValues)) :
  NoDup blocks.*1 → tagged blocks →
  Forall (fun b => withTag b.1 (concat blocks.*2) = b.2) blocks.
Proof.
  intros Hnodup Hblocks. induction Hblocks as [|[t g] blocks [Hne Hg] Hbs IH];
    cbn -[withTag] in *; [done|].
  apply NoDup_cons in Hnodup as [Ht Hnodup]. constructor; cbn -[withTag].
  - rewrite withTag_app, withTag_all by done.
    rewrite (withTag_absent t (concat blocks.*2)); [by rewrite app_nil_r|].
    intros Hin. apply Ht.
    exact (proj1 (Forall_forall _ _) (tagged_tags blocks Hbs) t Hin).
  - specialize (IH Hnodup).
    apply Forall_forall. intros [u h] Hb.
    pose proof (proj1 (Forall_forall _ _) IH (u, h) Hb) as Hu.
    cbn -[withTag] in *.
    rewrite withTag_app, Hu, (withTag_other t); [done| |done].
    intros ->. apply Ht. by apply (list_elem_of_fmap_2 fst _ (t, h)).
Qed.

(** [EachTag] gives back the blocks a list was made of. *)
Lemma tagGroupsOf_concat (blocks : list (string * RawValues)) :
  NoDup blocks.*1 → tagged blocks → tagGroupsOf (concat blocks.*2) = blocks.
Proof.
  intros Hnodup Hblocks.
  rewrite tagGroupsOf_spec, tagged_firstSeen by done.
  pose proof (tagged_withTag blocks Hnodup Hblocks) as Hgroups.
  clear Hnodup Hblocks. revert Hgroups.
  generalize (concat blocks.*2). intros c Hgroups.
  induction Hgroups as [|[t g] blocks Hg _ IH]; cbn -[withTag] in *; [done|].
  by rewrite Hg, IH.
Qed.

Lemma tagGroupsOf_tagged (c : RawValues) :
  NoDup (tagGroupsOf c).*1 ∧ tagged (tagGroupsOf c).
Proof.
  rewrite tagGroupsOf_spec. split.
  - rewrite <- list_fmap_compose. cbn. rewrite list_fmap_id.
    apply firstSeen_NoDup.
  - apply Forall_fmap, Forall_forall. intros t Ht.
    apply (proj1 (firstSeen_elem_of _ _)) in Ht. cbn -[withTag].
    split.
    + apply list_elem_of_fmap in Ht as (v & -> & Hv).
      intros Hnil. assert (v ∈ withTag (Tag v) c) as Hin
        by (by apply withTag_elem_of).
      rewrite Hnil in Hin. by apply elem_of_nil in Hin.
    + apply Forall_forall. by intros v [Hv _]%withTag_elem_of.
Qed.



(** X12: when a list is made of blocks, each block not empty, of one tag,
    and no two blocks of the same tag, [EachTag] calls back with those
    blocks, in their order: the groups put end to end are the list itself. *)
Theorem EachTag_recovers_blocks (blocks : list (string * RawValues)) :
  NoDup blocks.*1 →
  Forall (fun b => b.2 ≠ [] ∧ Forall (fun v => Tag v = b.1) b.2) blocks →
  tagGroupsOf (concat blocks.*2) = blocks
  ∧ concat (tagGroupsOf (concat blocks.*2)).*2 = concat blocks.*2.
Proof.
  intros Hnodup Hblocks. by rewrite tagGroupsOf_concat.
Qed.

(** X13: grouping the groups of a list put end to end gives the same
    groups: a list once regrouped stays as it is. *)
Theorem EachTag_regroup (c : RawValues) :
  tagGroupsOf (concat (tagGroupsOf c).*2) = tagGroupsOf c.
Proof.
  destruct (tagGroupsOf_tagged c) as [Hnodup Htagged].
  by apply tagGroupsOf_concat.
Qed.

End MoreTagFacts.

(** ** The result bundle, continued *)

Section MoreBundleFacts.

Import completion spec.

(** X14: [Merge] leaves the candidates of the receiver as they are: after
    any number of merges they are those it had, whatever candidates the
    bundles merged in carry, and also when a merge panicked. *)
Theorem mergeAll_keeps_candidates (c : Values) (others : list Values) :
  values (receiver (mergeAll c others)) = values c.
Proof.
  revert c. induction others as [|o others IH]; intros c; [done|].
  cbn [mergeAll]. pose proof (Merge_values c o) as Hvalues.
  destruct (Merge c o) as [c'|c']; cbn in *; [|done].
  by rewrite IH.
Qed.

(** X15: on a receiver whose map was made, [Merge] returns; the tags listed
    long are then those of the receiver and those of the bundle merged in,
    and a tag the receiver did not have is marked [true], whatever the
    bundle merged in held for it. On a receiver whose map is nil, [Merge]
    panics exactly when the bundle merged in lists a tag, and the map stays
    nil. *)
Theorem Merge_ListLong_marks_true (c other : Values) :
  (∀ entries, ListLong c = Some entries →
     ∃ r marked,
       Merge c other = Returned r ∧ ListLong r = Some marked
       ∧ dom marked = dom entries ∪ list_to_set (tagKeys (ListLong other))
       ∧ ∀ tag, entries !! tag = None →
                is_Some (tagLookup (ListLong other) tag) →
                marked !! tag = Some true)
  ∧ (ListLong c = None →
     ListLong (receiver (Merge c other)) = None
     ∧ (returns (Merge c other) = false
        ↔ ∃ tag, is_Some (tagLookup (ListLong other) tag))).
Proof.
  pose proof (Merge_ListLong c other) as Hlong.
  pose proof (Merge_returns c other) as Hreturns.
  split.
  - intros entries Hc. rewrite Hc in Hlong, Hreturns.
    destruct Hlong as (marked & Hmarked & Hlookup).
    destruct (Merge c other) as [r|r]; cbn in *.
    + exists r, marked. split; [done|]. split; [done|]. split.
      * apply set_eq. intros t.
        rewrite elem_of_union, !elem_of_dom, elem_of_list_to_set.
        rewrite tagKeys_elem_of, Hlookup.
        destruct (entries !! t), (tagLookup (ListLong other) t);
          rewrite !is_Some_alt; tauto.
      * intros tag Hnone [b Hb]. by rewrite Hlookup, Hnone, Hb.
    + assert (false = true) as Habsurd by (apply Hreturns; left; by eexists).
      discriminate Habsurd.
  - intros Hc. rewrite Hc in Hlong, Hreturns. split; [done|].
    destruct (returns (Merge c other)).
    + split; [done|]. intros [tag [b Hb]].
      destruct (proj1 Hreturns eq_refl) as [[? ?]|Hnil]; [done|].
      apply tagKeys_nil with (t := tag) in Hnil. congruence.
    + split; [|done]. intros _.
      destruct (tagKeys (ListLong other)) as [|tag keys] eqn:Hkeys.
      * assert (false = true) as Habsurd by (apply Hreturns; by right).
        discriminate Habsurd.
      * exists tag. apply tagKeys_elem_of. rewrite Hkeys. left.
Qed.

Lemma Merge_allocated_returns (c other : Values) :
  is_Some (ListLong c) →
  ∃ r, Merge c other = Returned r ∧ is_Some (ListLong r).
Proof.
  intros Hc. pose proof (proj2 (Merge_returns c other) (or_introl Hc)) as Hr.
  pose proof (proj2 (Merge_allocated c other) Hc) as Ha.
  destruct (Merge c other) as [r|r]; [|done]. by exists r.
Qed.

Lemma Merge_returned_lookup (c other r : Values) t :
  Merge c other = Returned r → is_Some (ListLong c) →
  tagLookup (ListLong r) t
  = match tagLookup (ListLong c) t with
    | Some b => Some b
    | None => match tagLookup (ListLong other) t with
              | Some _ => Some true
              | None => None
              end
    end.
Proof.
  intros Hr [entries Hc]. pose proof (Merge_ListLong c other) as Hlong.
  rewrite Hr, Hc in Hlong. destruct Hlong as (marked & Hmarked & Hlookup).
  cbn in Hmarked. rewrite Hmarked, Hc. cbn. apply Hlookup.
Qed.

(** X17: on bundles whose maps were made, merging is associative on the
    usage, the tags listed long and the candidates: the merges return, and
    merging [b] then [c] into [a] leaves there what merging into [a] the
    bundle [b] merged with [c] leaves. *)
Theorem Merge_assoc_fields (a b c : Values) :
  is_Some (ListLong a) → is_Some (ListLong b) →
  ∃ ab abc bc a_bc,
    Merge a b = Returned ab ∧ Merge ab c = Returned abc
    ∧ Merge b c = Returned bc ∧ Merge a bc = Returned a_bc
    ∧ Usage abc = Usage a_bc
    ∧ ListLong abc = ListLong a_bc
    ∧ values abc = values a_bc.
Proof.
  intros Ha Hb.
  destruct (Merge_allocated_returns a b Ha) as (ab & Hab & Hab').
  destruct (Merge_allocated_returns ab c Hab') as (abc & Habc & Habc').
  destruct (Merge_allocated_returns b c Hb) as (bc & Hbc & Hbc').
  destruct (Merge_allocated_returns a bc Ha) as (a_bc & Ha_bc & Ha_bc').
  exists ab, abc, bc, a_bc. repeat (split; [done|]).
  pose proof (Merge_Usage a b) as Hu1. pose proof (Merge_Usage ab c) as Hu2.
  pose proof (Merge_Usage b c) as Hu3. pose proof (Merge_Usage a bc) as Hu4.
  pose proof (Merge_values a b) as Hv1. pose proof (Merge_values ab c) as Hv2.
  pose proof (Merge_values a bc) as Hv4.
  rewrite Hab in Hu1, Hv1. rewrite Habc in Hu2, Hv2.
  rewrite Hbc in Hu3. rewrite Ha_bc in Hu4, Hv4. cbn in *.
  split; [|split].
  - rewrite Hu2, Hu4, Hu1, Hu3. by repeat case_decide.
  - destruct Habc' as [m1 Hm1], Ha_bc' as [m2 Hm2]. rewrite Hm1, Hm2.
    f_equal. apply map_eq. intros t.
    change (tagLookup (Some m1) t = tagLookup (Some m2) t).
    rewrite <- Hm1, <- Hm2.
    rewrite (Merge_returned_lookup ab c abc t Habc Hab').
    rewrite (Merge_returned_lookup a b ab t Hab Ha).
    rewrite (Merge_returned_lookup a bc a_bc t Ha_bc Ha).
    rewrite (Merge_returned_lookup b c bc t Hbc Hb).
    by destruct (tagLookup (ListLong a) t), (tagLookup (ListLong b) t),
               (tagLookup (ListLong c) t).
  - congruence.
Qed.

End MoreBundleFacts.

(** ** The commands, continued *)

Section MoreCommandFacts.

Import keymap readline spec traces.

Context {World : Type} `{!Shell World} `{!color.Palette}.

Abbreviation M := (M (World := World)).

Ltac unfold_commands :=
  unfold completeWord, possibleCompletions, insertCompletions, menuComplete,
    deleteCharOrList, menuCompleteBackward, menuCompleteNextTag,
    menuCompletePrevTag, acceptAndMenuComplete, viRegistersComplete,
    menuIncrementalSearch, startMenuComplete, bind, call, read, ret, calls,
    world;
  cbn.

(** X18: menu-complete-backward, menu-complete-next-tag and
    menu-complete-prev-tag call [SkipSave] and then, if a completion is
    active, make their one step ([Select(-1, 0)], [SelectTag(true)],
    [SelectTag(false)]); if none is active they stop there. They never
    generate completions nor set the keymap. *)
Theorem navigation_steps_when_active :
  Forall (fun '(cmd, step) =>
            ∀ w : World,
              let saved := exec undo_SkipSave w in
              cmd w = (if completer_IsActive saved
                       then (tt, exec step saved, [undo_SkipSave; step])
                       else (tt, saved, [undo_SkipSave]))
              ∧ Forall (fun c => generates c = false ∧ setsKeymap c = false)
                       (calls (cmd w)))
    [(menuCompleteBackward : M unit, completer_Select (-1) 0);
     (menuCompleteNextTag, completer_SelectTag true);
     (menuCompletePrevTag, completer_SelectTag false)].
Proof.
  repeat constructor; unfold_commands;
    destruct (completer_IsActive (exec undo_SkipSave w));
    cbn; by repeat constructor.
Qed.

(** X19: accept-and-menu-complete calls [SkipSave]; only with a completion
    active and a candidate inserted does it go on, with [Cancel(false,
    false)] and then [Select(1, 0)]. It never generates completions nor sets
    the keymap. *)
Theorem acceptAndMenuComplete_cases (w : World) :
  let saved := exec undo_SkipSave w in
  acceptAndMenuComplete w
  = (if completer_IsActive saved && completer_IsInserting saved
     then (tt,
           exec (completer_Select 1 0)
             (exec (completer_Cancel false false) saved),
           [undo_SkipSave; completer_Cancel false false; completer_Select 1 0])
     else (tt, saved, [undo_SkipSave]))
  ∧ Forall (fun c => generates c = false ∧ setsKeymap c = false)
           (calls (acceptAndMenuComplete w)).
Proof.
  unfold_commands.
  destruct (completer_IsActive (exec undo_SkipSave w)); cbn;
    [destruct (completer_IsInserting (exec undo_SkipSave w)); cbn|];
    by repeat constructor.
Qed.

(** X20: complete and menu-complete do the same with a completion active;
    with none, complete does what menu-complete does and then selects the
    first candidate with [Select(1, 0)]. *)
Theorem completeWord_menuComplete (w : World) :
  let saved := exec undo_SkipSave w in
  (completer_IsActive saved = true → completeWord w = menuComplete w)
  ∧ (completer_IsActive saved = false →
     calls (completeWord w) = calls (menuComplete w) ++ [completer_Select 1 0]
     ∧ world (completeWord w)
       = exec (completer_Select 1 0) (world (menuComplete w))).
Proof.
  unfold_commands. split; intros ->; cbn; by repeat split.
Qed.

(** X21: vi-registers-complete is menu-complete with the registers for the
    producer: the same calls, the producer apart, and the same run when a
    completion is active. *)
Theorem viRegistersComplete_menuComplete (w : World) :
  calls (viRegistersComplete w)
  = withCompleter buffersComplete <$> calls (menuComplete w)
  ∧ (completer_IsActive (exec undo_SkipSave w) = true →
     viRegistersComplete w = menuComplete w).
Proof.
  unfold_commands. split; [|by intros ->].
  by destruct (completer_IsActive (exec undo_SkipSave w)).
Qed.

(** X22: menu-incremental-search always ends on [IsearchStart("completions",
    false)]; it generates the completions of the command line first when no
    completion is active, and only then; it never sets the keymap itself. *)
Theorem menuIncrementalSearch_shape (w : World) :
  let saved := exec undo_SkipSave w in
  calls (menuIncrementalSearch w)
  = (if completer_IsActive saved
     then [undo_SkipSave; completer_IsearchStart "completions" false]
     else [undo_SkipSave; completer_GenerateWith commandCompletion;
           completer_IsearchStart "completions" false])
  ∧ last (calls (menuIncrementalSearch w))
    = Some (completer_IsearchStart "completions" false)
  ∧ Forall (fun c => setsKeymap c = false) (calls (menuIncrementalSearch w)).
Proof.
  unfold_commands.
  destruct (completer_IsActive (exec undo_SkipSave w)); cbn;
    by repeat constructor.
Qed.

(** X23: no command of the table cycles the history sources, touches the
    hint or forces the completion; and only delete-char-or-list cuts a rune
    of the line. *)
Theorem completionCommands_calls name (cmd : M unit) :
  completionCommands !! name = Some cmd →
  ∀ w, Forall (fun c => ofHistory c = false
                        ∧ (cutsRune c = true → name = "delete-char-or-list"))
              (calls (cmd w)).
Proof.
  intros Hcmd%completionCommands_entries w.
  repeat (apply elem_of_cons in Hcmd as [[= -> ->]|Hcmd]);
    [..|by apply elem_of_nil in Hcmd];
    unfold_commands;
    repeat match goal with
           | |- context [if negb ?b then _ else _] => destruct b; cbn
           | |- context [if ?a <? ?b then _ else _] => destruct (a <? b); cbn
           end;
    by repeat constructor.
Qed.

(** X24: the calls of a history completion have one of four shapes: the
    wrap ([Cycle(true)], [ResetForce], [Reset] of the hint); or, after
    [Cycle(true)] or after nothing, the hint that there is no history
    source, or the incremental search, or the forced menu. It cycles
    forward only, whatever [forward] is, cuts no rune, and generates with no
    producer but that of the history for [forward] and [filterLine]. *)
Theorem historyCompletion_shapes (forward filterLine incremental : bool)
    (w : World) :
  let cs := calls (historyCompletion forward filterLine incremental w) in
  let completer := historiesComplete forward filterLine in
  (∃ pre, (pre = [] ∨ pre = [histories_Cycle true])
     ∧ (cs = [histories_Cycle true; completer_ResetForce; hint_Reset]
        ∨ cs = pre ++ [hint_Set noHistorySource]
        ∨ (incremental = true
           ∧ ∃ name, cs = pre ++ [completer_GenerateWith completer;
                                  completer_IsearchStart name true])
        ∨ (incremental = false
           ∧ cs = pre ++ [undo_SkipSave; keymaps_SetLocal MenuSelect;
                          completer_GenerateWith completer;
                          completer_AutocompleteForce])))
  ∧ Forall (fun c => c ≠ histories_Cycle false ∧ cutsRune c = false
                     ∧ (generates c = true
                        → c = completer_GenerateWith completer)) cs.
Proof.
  cbn zeta.
  assert (∀ w', let cs := calls (historyCompletionDefault forward filterLine
                                   incremental w') in
            (cs = [hint_Set noHistorySource]
             ∨ (incremental = true
                ∧ ∃ name, cs = [completer_GenerateWith
                                  (historiesComplete forward filterLine);
                                completer_IsearchStart name true])
             ∨ (incremental = false
                ∧ cs = [undo_SkipSave; keymaps_SetLocal MenuSelect;
                        completer_GenerateWith
                          (historiesComplete forward filterLine);
                        completer_AutocompleteForce]))
            ∧ Forall (fun c => c ≠ histories_Cycle false ∧ cutsRune c = false
                               ∧ (generates c = true
                                  → c = completer_GenerateWith
                                          (historiesComplete forward filterLine)))
                     cs) as Hdefault.
  { intros w'. cbn zeta. rewrite historyCompletionDefault_run.
    destruct (histories_Current w'); [destruct incremental|]; cbn.
    - split; [right; left; eauto|]. by repeat constructor.
    - split; [right; right; eauto|]. by repeat constructor.
    - split; [by left|]. by repeat constructor. }
  destruct (decide (keymaps_Local w = MenuSelect ∨ keymaps_Local w = Isearch
                    ∨ completer_AutoCompleting w = true)) as [Hb|Hb].
  - destruct (histories_OnLastSource w) eqn:Hlast.
    + rewrite historyCompletion_last by done. cbn. split.
      * exists []. split; [by left|]. by left.
      * by repeat constructor.
    + assert (calls (historyCompletion forward filterLine incremental w)
              = histories_Cycle true
                :: calls (historyCompletionDefault forward filterLine
                            incremental (exec (histories_Cycle true) w)))
        as -> by (by rewrite historyCompletion_next).
      destruct (Hdefault (exec (histories_Cycle true) w)) as [Hshape Hcalls].
      split.
      * exists [histories_Cycle true]. split; [by right|]. right.
        destruct Hshape as [->|[[-> [name ->]]|[-> ->]]]; eauto 6.
      * constructor; [done|exact Hcalls].
  - rewrite historyCompletion_fresh;
      [|tauto|tauto|destruct (completer_AutoCompleting w); tauto].
    destruct (Hdefault w) as [Hshape Hcalls]. split; [|done].
    exists []. split; [by left|]. right.
    destruct Hshape as [->|[[-> [name ->]]|[-> ->]]]; eauto 6.
Qed.

(** X25: outside menu-select and isearch modes, with no completion forced
    and a current history source, a history completion opens the
    completion of that source: incrementally with [GenerateWith] and then
    [IsearchStart] under the name the sources report once generated, with no
    [SkipSave] and no keymap set; otherwise as a menu ([SkipSave], the
    menu-select keymap, [GenerateWith]) that it then forces. *)
Theorem historyCompletion_opens (forward filterLine incremental : bool)
    (w : World) :
  keymaps_Local w ≠ MenuSelect → keymaps_Local w ≠ Isearch →
  completer_AutoCompleting w = false → is_Some (histories_Current w) →
  let completer := historiesComplete forward filterLine in
  historyCompletion forward filterLine incremental w
  = if incremental then
      let generated := exec (completer_GenerateWith completer) w in
      let name := histories_Name generated in
      (tt, exec (completer_IsearchStart name true) generated,
       [completer_GenerateWith completer; completer_IsearchStart name true])
    else
      (tt,
       exec completer_AutocompleteForce
         (exec (completer_GenerateWith completer)
            (exec (keymaps_SetLocal MenuSelect) (exec undo_SkipSave w))),
       [undo_SkipSave; keymaps_SetLocal MenuSelect;
        completer_GenerateWith completer; completer_AutocompleteForce]).
Proof.
  intros Hm Hs Ha [src Hsrc]. cbn zeta.
  by rewrite historyCompletion_fresh, historyCompletionDefault_run, Hsrc.
Qed.

End MoreCommandFacts.

(** ** The further properties on concrete inputs *)

Section MoreExamples.

Import keymap completion readline simulation spec traces.

Abbreviation FilterPrefix := (completion.FilterPrefix noUnicode).
Abbreviation Less := (completion.Less noUnicode).

Lemma FilterPrefix_narrows_example :
  strings.is_prefix "a" "ab"
  ∧ FilterPrefix (FilterPrefix [cABC; foo; cabc] "a" false) "ab" false
    = [cABC; cabc]
  ∧ FilterPrefix (FilterPrefix [cABC; foo; cabc] "ab" false) "a" false
    = [cABC; cabc].
Proof.
  assert (strings.is_prefix "a" "ab") as Hprefix by repeat constructor.
  split; [exact Hprefix|].
  destruct (FilterPrefix_narrows noUnicode [cABC; foo; cabc] "a" "ab" false
              Hprefix (or_intror eq_refl)) as [Hthen Hagain].
  rewrite Hthen, Hagain. by split.
Defined.

Lemma FilterPrefix_matchCase_within_example :
  FilterPrefix (FilterPrefix [cABC; foo; cabc] "ab" false) "ab" true = [cabc].
Proof.
  rewrite (FilterPrefix_matchCase_within noUnicode [cABC; foo; cabc] "ab");
    [reflexivity|].
  by repeat constructor.
Defined.

Lemma Less_strict_order_example :
  Less [bar; foo] 0 1 = Some true
  ∧ Less [bar; foo] 1 0 = Some false
  ∧ Less [bar; foo] 0 0 ≠ Some true.
Proof.
  destruct (Less_strict_order noUnicode [bar; foo]) as (Hirrefl & Hasym & _);
    [by repeat constructor|].
  split; [reflexivity|]. split; [by apply Hasym|apply Hirrefl].
Defined.

Lemma Less_after_Swap_example :
  Swap [foo; bar] 0 1 = Some [bar; foo]
  ∧ Less [bar; foo] 0 1 = Less [foo; bar] 1 0
  ∧ Less [bar; foo] 1 0 = Less [foo; bar] 0 1.
Proof.
  split; [reflexivity|].
  apply (Less_after_Swap noUnicode [foo; bar] [bar; foo] 0 1). reflexivity.
Defined.

Lemma EachTag_recovers_blocks_example :
  tagGroupsOf ([foo; bar] ++ [help])
  = [("files", [foo; bar]); ("flags", [help])].
Proof.
  apply (EachTag_recovers_blocks [("files", [foo; bar]); ("flags", [help])]).
  - by apply (bool_decide_unpack _).
  - by repeat constructor.
Defined.

Lemma MergeIn_any_order_example :
  MergeIn ["flags"; "files"; "flags"] commands
    (mkValues [] "" ∅ ∅ (Some {["files" := false; "flags" := false]}))
  = Merge commands
      (mkValues [] "" ∅ ∅ (Some {["files" := false; "flags" := false]})).
Proof.
  apply MergeIn_any_order. intros t. cbn.
  rewrite !elem_of_cons, elem_of_nil.
  destruct (decide (t = "files")) as [->|Hfiles]; [split; [by eexists|tauto]|].
  destruct (decide (t = "flags")) as [->|Hflags]; [split; [by eexists|tauto]|].
  split; [tauto|]. rewrite lookup_insert_ne, lookup_singleton_ne by done.
  by intros [b Hb].
Defined.

Lemma Merge_assoc_fields_example :
  ∃ ab abc bc a_bc,
    Merge files flags = Returned ab ∧ Merge ab commands = Returned abc
    ∧ Merge flags commands = Returned bc ∧ Merge files bc = Returned a_bc
    ∧ Usage abc = Usage a_bc
    ∧ ListLong abc = ListLong a_bc
    ∧ values abc = values a_bc.
Proof. apply (Merge_assoc_fields files flags commands); by eexists. Defined.

(** Without a map in the second bundle one side panics: merging [history]
    and then [flags] into [files] returns, merging [flags] into [history]
    does not. *)
Example Merge_assoc_nil_map :
  (∃ ab, Merge files history = Returned ab ∧ returns (Merge ab flags) = true)
  ∧ returns (Merge history flags) = false.
Proof. split; [eexists; split|]; by vm_compute. Qed.

Lemma completionCommands_calls_example :
  Forall (fun c => ofHistory c = false
                   ∧ (cutsRune c = true
                      → "delete-char-or-list" = "delete-char-or-list"))
         (calls (deleteCharOrList (editing [] 3)))
  ∧ calls (deleteCharOrList (editing [] 3)) = [line_CutRune 3].
Proof.
  split; [|reflexivity].
  apply (completionCommands_calls "delete-char-or-list" deleteCharOrList).
  reflexivity.
Defined.

Lemma historyCompletion_opens_example :
  historyCompletion false true true (editing ["shell"] 5)
  = (tt, mkState 5 5 true false false Isearch ["shell"] 0 "",
     [completer_GenerateWith (historiesComplete false true);
      completer_IsearchStart "shell" true]).
Proof.
  by rewrite (historyCompletion_opens false true true (editing ["shell"] 5)).
Defined.

End MoreExamples.
